(** * Contextual decomposition scores: a model of [acd/scores/cd.py]

    The development embeds the two propagators of [cd.py] -- the layer-wise
    propagator [cd] (with its fixed pipelines [cd_propagate_mnist] and
    [cd_track_vgg]) and the LSTM text propagator [cd_text] -- and proves the
    properties stated about them.

    Numbers.  The code computes with floating-point tensors.  The model works
    in exact arithmetic over an arbitrary commutative ring in which [1/2]
    exists ([Scalar]); rounding is abstracted away, so "equal" below means
    equal as exact numbers.  The instance [Qc_Scalar] (canonical rationals)
    is executable and is used for every concrete run.

    Tensors.  A one-dimensional array is a [list F]; a two-dimensional one is
    the list of its rows.  Element-wise operations are [zip_with] and
    [np.dot] is a sum over [zip_with]: on operands of matching shapes they
    agree with numpy.  On mismatched shapes numpy raises or broadcasts; the
    theorems that state that a call returns carry the shape hypotheses
    ([well_shaped], equal lengths) under which this does not occur. *)

From Stdlib Require Import ZArith QArith Qcanon Ring.
From stdpp Require Import base list strings.
Close Scope Qc_scope.
Close Scope Q_scope.

(** ** Scalars *)

Class Scalar (F : Type) := {
  Fzero : F;
  Fone : F;
  Fadd : F -> F -> F;
  Fmul : F -> F -> F;
  Fsub : F -> F -> F;
  Fopp : F -> F;
  Fhalf : F;
  Fleb : F -> F -> bool;
  Feqb : F -> F -> bool;
  F_ring : ring_theory Fzero Fone Fadd Fmul Fsub Fopp eq;
  F_half : Fadd Fhalf Fhalf = Fone;
  F_eqb : forall x y, Feqb x y = true <-> x = y
}.

#[export] Program Instance Qc_Scalar : Scalar Qc := {|
  Fzero := 0%Qc; Fone := 1%Qc;
  Fadd := Qcplus; Fmul := Qcmult; Fsub := Qcminus; Fopp := Qcopp;
  Fhalf := Q2Qc (1 # 2);
  Fleb := fun x y => Qle_bool (this x) (this y);
  Feqb := fun x y => Qeq_bool (this x) (this y);
  F_ring := Qcrt |}.
Next Obligation. apply Qc_is_canon. reflexivity. Qed.
Next Obligation.
  intros x y. rewrite Qeq_bool_iff.
  split; [apply Qc_is_canon | intros ->; reflexivity].
Qed.

(** ** Python exceptions as an error monad *)

Inductive exn := IndexError | ValueError | RuntimeError | TypeError.

Inductive result (A : Type) :=
| Ok (a : A)
| Raise (e : exn).
Arguments Ok {A} a.
Arguments Raise {A} e.

#[export] Instance result_ret : MRet result := fun A a => Ok a.
#[export] Instance result_bind : MBind result := fun A B k c =>
  match c with
  | Ok a => k a
  | Raise e => Raise e
  end.

(** [l[k]] for a Python list and a non-negative index. *)
Definition py_index {A} (l : list A) (k : nat) : result A :=
  match l !! k with
  | Some a => Ok a
  | None => Raise IndexError
  end.

(** ['needle' in hay] on Python strings. *)
Fixpoint starts_with (needle hay : string) : bool :=
  match needle, hay with
  | EmptyString, _ => true
  | String a n', String b h' => if Ascii.eqb a b then starts_with n' h' else false
  | String _ _, EmptyString => false
  end.

Fixpoint py_in (needle hay : string) : bool :=
  match hay with
  | EmptyString => starts_with needle hay
  | String _ rest => starts_with needle hay || py_in needle rest
  end.

Section Numeric.
Context {F : Type} {SF : Scalar F}.
Add Ring Fring : F_ring.

Local Abbreviation vec := (list F).
Local Abbreviation matrix := (list (list F)).

(** ** Arrays *)

Definition nth_d {A} (d : A) (l : list A) (k : nat) : A := default d (l !! k).
Definition vnth (v : vec) (k : nat) : F := nth_d Fzero v k.
Definition row (W : matrix) (k : nat) : vec := nth_d [] W k.

Definition vadd (u v : vec) : vec := zip_with Fadd u v.
Definition vsub (u v : vec) : vec := zip_with Fsub u v.
Definition vmul (u v : vec) : vec := zip_with Fmul u v.
Definition vscale (c : F) (v : vec) : vec := Fmul c <$> v.
Definition zeros (n : nat) : vec := replicate n Fzero.

(** [np.dot] of two 1-d arrays, and of a 2-d array with a 1-d array. *)
Definition dot (u v : vec) : F := foldr Fadd Fzero (zip_with Fmul u v).
Definition np_dot (W : matrix) (v : vec) : vec := (fun r => dot r v) <$> W.

(** *** Pointwise reasoning *)

Lemma vec_ext (u v : vec) :
  length u = length v ->
  (forall k, k < length u -> vnth u k = vnth v k) ->
  u = v.
Proof.
  intros Hl Hk. apply list_eq. intros k.
  destruct (decide (k < length u)) as [Hlt|Hge].
  - specialize (Hk k Hlt). unfold vnth, nth_d in Hk.
    destruct (lookup_lt_is_Some_2 u k Hlt) as [x Hx].
    destruct (lookup_lt_is_Some_2 v k ltac:(lia)) as [y Hy].
    rewrite Hx, Hy in *. simpl in Hk. by subst.
  - rewrite !lookup_ge_None_2; [done | lia | lia].
Qed.

Lemma nth_d_lookup {A} (d : A) l k x : l !! k = Some x -> nth_d d l k = x.
Proof. unfold nth_d. by intros ->. Qed.

Lemma lookup_nth_d {A} (d : A) l k : k < length l -> l !! k = Some (nth_d d l k).
Proof.
  intros H. destruct (lookup_lt_is_Some_2 l k H) as [x Hx].
  by rewrite (nth_d_lookup d l k x Hx).
Qed.

Lemma vnth_zip_with f (u v : vec) k :
  k < length u -> k < length v ->
  vnth (zip_with f u v) k = f (vnth u k) (vnth v k).
Proof.
  intros Hu Hv. unfold vnth. apply nth_d_lookup.
  rewrite lookup_zip_with.
  by rewrite (lookup_nth_d Fzero u k Hu), (lookup_nth_d Fzero v k Hv).
Qed.

Lemma vnth_fmap (f : F -> F) (u : vec) k :
  k < length u -> vnth (f <$> u) k = f (vnth u k).
Proof.
  intros Hu. unfold vnth. apply nth_d_lookup.
  by rewrite list_lookup_fmap, (lookup_nth_d Fzero u k Hu).
Qed.

Lemma vnth_vadd u v k :
  k < length u -> k < length v -> vnth (vadd u v) k = Fadd (vnth u k) (vnth v k).
Proof. apply vnth_zip_with. Qed.
Lemma vnth_vsub u v k :
  k < length u -> k < length v -> vnth (vsub u v) k = Fsub (vnth u k) (vnth v k).
Proof. apply vnth_zip_with. Qed.
Lemma vnth_vmul u v k :
  k < length u -> k < length v -> vnth (vmul u v) k = Fmul (vnth u k) (vnth v k).
Proof. apply vnth_zip_with. Qed.
Lemma vnth_vscale c u k :
  k < length u -> vnth (vscale c u) k = Fmul c (vnth u k).
Proof. apply vnth_fmap. Qed.

Lemma vnth_zeros n k : k < n -> vnth (zeros n) k = Fzero.
Proof. intros H. apply nth_d_lookup. by apply lookup_replicate_2. Qed.

Lemma vnth_np_dot W v k :
  k < length W -> vnth (np_dot W v) k = dot (row W k) v.
Proof.
  intros H. apply nth_d_lookup. unfold np_dot.
  by rewrite list_lookup_fmap, (lookup_nth_d [] W k H).
Qed.

Lemma length_vadd u v : length (vadd u v) = length u `min` length v.
Proof. apply length_zip_with. Qed.
Lemma length_vsub u v : length (vsub u v) = length u `min` length v.
Proof. apply length_zip_with. Qed.
Lemma length_vmul u v : length (vmul u v) = length u `min` length v.
Proof. apply length_zip_with. Qed.
Lemma length_vscale c v : length (vscale c v) = length v.
Proof. apply length_fmap. Qed.
Lemma length_zeros n : length (zeros n) = n.
Proof. apply length_replicate. Qed.
Lemma length_np_dot W v : length (np_dot W v) = length W.
Proof. apply length_fmap. Qed.

(** *** Linearity of [np.dot] *)

Lemma dot_add_r (w u v : vec) :
  length u = length v ->
  dot w (vadd u v) = Fadd (dot w u) (dot w v).
Proof.
  unfold dot, vadd. revert u v.
  induction w as [|a w IH]; intros [|x u] [|y v] Hl; simpl in *;
    try discriminate; try (rewrite IH by lia); ring.
Qed.

Lemma dot_zeros_r (w : vec) n : dot w (zeros n) = Fzero.
Proof.
  unfold dot, zeros. revert n.
  induction w as [|a w IH]; intros [|n]; simpl; try reflexivity.
  rewrite IH. ring.
Qed.

Lemma np_dot_add_r W (u v : vec) :
  length u = length v ->
  np_dot W (vadd u v) = vadd (np_dot W u) (np_dot W v).
Proof.
  intros Hl. induction W as [|w W IH]; [done|].
  change (dot w (vadd u v) :: np_dot W (vadd u v)
          = Fadd (dot w u) (dot w v) :: vadd (np_dot W u) (np_dot W v)).
  by rewrite IH, (dot_add_r w u v Hl).
Qed.

Lemma np_dot_zeros_r W n : np_dot W (zeros n) = zeros (length W).
Proof.
  induction W as [|w W IH]; [done|].
  change (dot w (zeros n) :: np_dot W (zeros n) = Fzero :: zeros (length W)).
  by rewrite IH, (dot_zeros_r w n).
Qed.

End Numeric.

Create Rewrite HintDb veclen.
#[global] Hint Rewrite @length_vadd @length_vsub @length_vmul @length_vscale
  @length_zeros @length_np_dot @length_fmap @length_zip_with @length_insert
  @length_replicate @length_take @length_drop : veclen.

(** Length goals: lengths of compound arrays are computed, known lengths
    are substituted, and arithmetic does the rest. *)
Ltac veclen :=
  autorewrite with veclen;
  repeat match goal with
         | H : length ?v = _ |- context [length ?v] => rewrite !H
         end;
  rewrite ?Nat.min_id; try lia.

Ltac veclen_in Hk :=
  autorewrite with veclen in Hk;
  repeat match goal with
         | H : length ?v = _ |- _ => rewrite !H in Hk
         end;
  rewrite ?Nat.min_id in Hk.

(** Reduce an equation between arrays to an equation between their entries. *)
Ltac vec_pointwise :=
  apply vec_ext;
  [ veclen
  | let k := fresh "k" in
    let Hk := fresh "Hk" in
    intros k Hk; veclen_in Hk;
    repeat first
      [ rewrite vnth_vadd by veclen
      | rewrite vnth_vsub by veclen
      | rewrite vnth_vmul by veclen
      | rewrite vnth_vscale by veclen
      | rewrite vnth_fmap by veclen
      | rewrite vnth_zeros by veclen ] ].

(** ** Layers and the decomposition primitives

    [cd.py] imports its primitives from [cd_propagate], whose source is not
    available here.  The propagators below take them as parameters; the
    definitions of this section follow the specification of the primitives
    and instantiate the parameters in concrete runs.  The primitives are
    specified for a relevant and an irrelevant tensor of the same shape; a
    call on two shapes is a violated precondition and is not modelled. *)

Section Primitives.
Context {F : Type} {SF : Scalar F}.
Add Ring Fring_prim : F_ring.

Local Abbreviation vec := (list F).
Local Abbreviation matrix := (list (list F)).

(** A [torch.nn.Module] as the propagators see it: the text of
    [str(type(mod))], the parameters (the linear map of a convolution or of a
    fully connected layer as a matrix on the flattened tensor, and its bias),
    the pooling window, and the training flag that [model.eval()] clears. *)
Record TorchModule := {
  type_str : string;
  weight : matrix;
  bias : option vec;
  kernel_size : nat;
  training : bool
}.

(** What a primitive receives as its third argument: a module, or one of
    the two functions [cd_propagate_mnist] passes instead. *)
Inductive operator :=
| OpModule (m : TorchModule)
| OpMaxPool2dFn (k : nat)      (* lambda x: F.max_pool2d(x, k, return_indices=True) *)
| OpReluFn.                    (* F.relu *)

(** [layer(x)] for a convolutional or linear layer. *)
Definition layer_apply (m : TorchModule) (x : vec) : vec :=
  match bias m with
  | Some b => vadd (np_dot (weight m) x) b
  | None => np_dot (weight m) x
  end.

Definition all_zero (v : vec) : bool := forallb (fun x => Feqb x Fzero) v.

(** Which side receives the bias of a linear layer. *)
Inductive bias_side := BiasIrrelevant | BiasRelevant | BiasSplit.

(** Modelled from the spec: the bias rule of [propagate_linear_like]
    ([cd_propagate] is missing).  "Assign the entire bias to irrelevant
    unless both inputs are all-zero"; in the degenerate cases "assign bias to
    whichever side is non-degenerate, or split evenly only if both are
    exactly zero". *)
Definition bias_side_of (r i : vec) : bias_side :=
  if all_zero r && all_zero i then BiasSplit
  else if all_zero i then BiasRelevant
  else BiasIrrelevant.

(** Modelled from the spec: [propagate_linear_like] of the missing module
    [cd_propagate]: "applies the layer's linear transform separately to
    relevant and to irrelevant", then places the bias by [bias_side_of]. *)
Definition propagate_linear_like (r i : vec) (m : TorchModule) : vec * vec :=
  let rel := np_dot (weight m) r in
  let irrel := np_dot (weight m) i in
  match bias m with
  | None => (rel, irrel)
  | Some b =>
    match bias_side_of r i with
    | BiasIrrelevant => (rel, vadd irrel b)
    | BiasRelevant => (vadd rel b, irrel)
    | BiasSplit => (vadd rel (vscale Fhalf b), vadd irrel (vscale Fhalf b))
    end
  end.

(** Modelled from the spec: [propagate_conv_linear], the name under which
    [cd.py] calls the linear primitive (missing with [cd_propagate]); its
    third argument must be a layer. *)
Definition propagate_conv_linear_spec (r i : vec) (op : operator)
  : result (vec * vec) :=
  match op with
  | OpModule m => Ok (propagate_linear_like r i m)
  | _ => Raise TypeError
  end.

(** [F.relu] on one entry. *)
Definition relu (x : F) : F := if Fleb Fzero x then x else Fzero.

(** Modelled from the spec: the 2x2 sign table of [propagate_relu]
    ([cd_propagate] is missing).  Both non-negative: each side passes through
    the activation as itself; signs differ: the activation of the sum goes to
    the non-negative side; both negative: zero to both. *)
Definition relu_split (r i : F) : F * F :=
  match Fleb Fzero r, Fleb Fzero i with
  | true, true => (r, i)
  | true, false => (relu (Fadd r i), Fzero)
  | false, true => (Fzero, relu (Fadd r i))
  | false, false => (Fzero, Fzero)
  end.

(** Modelled from the spec: [propagate_relu] of the missing [cd_propagate]:
    the sign table, entry by entry. *)
Definition propagate_relu_spec (r i : vec) (op : operator) : result (vec * vec) :=
  let l := zip_with relu_split r i in
  Ok (fst <$> l, snd <$> l).

Definition window_size (op : operator) : nat :=
  match op with
  | OpModule m => kernel_size m
  | OpMaxPool2dFn k => k
  | OpReluFn => 0
  end.

(** The entry of a window at which [relevant + irrelevant] is largest (the
    first such entry). *)
Fixpoint window_argmax (best : F * F) (w : list (F * F)) : F * F :=
  match w with
  | [] => best
  | p :: w' =>
    if Fleb (Fadd p.1 p.2) (Fadd best.1 best.2)
    then window_argmax best w'
    else window_argmax p w'
  end.

Fixpoint pool_windows (fuel k : nat) (l : list (F * F)) : list (F * F) :=
  match fuel with
  | 0 => []
  | S fuel' =>
    match take k l with
    | [] => []
    | p :: w =>
      if length w <? pred k then []
      else window_argmax p w :: pool_windows fuel' k (drop k l)
    end
  end.

(** Modelled from the spec: [propagate_pooling] of the missing [cd_propagate],
    on the flattened tensor with windows of [k] consecutive entries: the
    arg-max of [relevant + irrelevant] is found per window and both sides are
    gathered at that same location. *)
Definition propagate_pooling_spec (r i : vec) (op : operator)
    (model_type : option string) : result (vec * vec) :=
  let l := pool_windows (length r) (window_size op) (zip r i) in
  Ok (fst <$> l, snd <$> l).

(** Modelled from the spec: [propagate_dropout] of the missing [cd_propagate]:
    "applies the same dropout mask (same random draw, or identity at
    inference) to both sides"; [draw] is the random draw. *)
Definition propagate_dropout_spec (draw : vec) (r i : vec) (op : operator)
  : result (vec * vec) :=
  match op with
  | OpModule m => if training m then Ok (vmul draw r, vmul draw i) else Ok (r, i)
  | _ => Raise TypeError
  end.

(** Modelled from the spec: [propagate_three] of the missing [cd_propagate],
    which "splits nonlinearity(rel+irrel+bias) [...] by evaluating the
    nonlinearity at three different zeroed-out combinations and taking a
    specified linear combination".  The spec leaves the combination open;
    this is the one of the contextual decomposition of LSTMs: each input is
    credited with the mean of its effect with and without the other input,
    the bias with the nonlinearity of the bias alone. *)
Definition propagate_three_spec (a b c : vec) (activation : F -> F)
  : vec * vec * vec :=
  let act (x : vec) := activation <$> x in
  let a_contrib :=
    vscale Fhalf (vsub (vadd (vsub (act (vadd a c)) (act c)) (act (vadd (vadd a b) c)))
                       (act (vadd b c))) in
  let b_contrib :=
    vscale Fhalf (vsub (vadd (vsub (act (vadd b c)) (act c)) (act (vadd (vadd a b) c)))
                       (act (vadd a c))) in
  (a_contrib, b_contrib, act c).

(** Modelled from the spec: [propagate_tanh_two] of the missing
    [cd_propagate], which "splits tanh(a+b) into two contributions", by the
    same rule without a bias. *)
Definition propagate_tanh_two_spec (tanh : F -> F) (a b : vec) : vec * vec :=
  let act (x : vec) := tanh <$> x in
  (vscale Fhalf (vadd (act a) (vsub (act (vadd a b)) (act b))),
   vscale Fhalf (vadd (act b) (vsub (act (vadd a b)) (act a)))).

Lemma vscale_half_twice (b : vec) : vadd (vscale Fhalf b) (vscale Fhalf b) = b.
Proof.
  vec_pointwise.
  transitivity (Fmul (Fadd Fhalf Fhalf) (vnth b k)); [ring|].
  rewrite F_half. ring.
Qed.

(** The sum of the two outputs does not depend on the side chosen. *)
Lemma linear_sum_irrelevant W (r i b : vec) :
  length r = length i ->
  vadd (np_dot W r) (vadd (np_dot W i) b) = vadd (np_dot W (vadd r i)) b.
Proof. intros Hl. rewrite np_dot_add_r by done. vec_pointwise. ring. Qed.

Lemma linear_sum_relevant W (r i b : vec) :
  length r = length i ->
  vadd (vadd (np_dot W r) b) (np_dot W i) = vadd (np_dot W (vadd r i)) b.
Proof. intros Hl. rewrite np_dot_add_r by done. vec_pointwise. ring. Qed.

Lemma linear_sum_split W (r i b : vec) :
  length r = length i ->
  vadd (vadd (np_dot W r) (vscale Fhalf b)) (vadd (np_dot W i) (vscale Fhalf b))
  = vadd (np_dot W (vadd r i)) b.
Proof.
  intros Hl. rewrite np_dot_add_r by done.
  rewrite <- (vscale_half_twice b) at 3.
  vec_pointwise. ring.
Qed.

(** C1. For a layer with a bias and two inputs of the same shape, the linear
    primitive returns a pair whose sum is the layer applied to the sum of
    the inputs, whichever way the bias rule goes. *)
Theorem propagate_conv_linear_sum (m : TorchModule) (b r i : vec) :
  bias m = Some b ->
  length r = length i ->
  exists out_r out_i,
    propagate_conv_linear_spec r i (OpModule m) = Ok (out_r, out_i) /\
    vadd out_r out_i = layer_apply m (vadd r i).
Proof.
  intros Hb Hl. unfold propagate_conv_linear_spec, propagate_linear_like, layer_apply.
  rewrite Hb. destruct (bias_side_of r i); eexists _, _; (split; [reflexivity|]).
  - by apply linear_sum_irrelevant.
  - by apply linear_sum_relevant.
  - by apply linear_sum_split.
Qed.

End Primitives.

(** ** The layer-wise propagator: [cd], [cd_propagate_mnist], [cd_track_vgg] *)

Section Propagators.
Context {F : Type} {SF : Scalar F}.

Local Abbreviation vec := (list F).
Local Abbreviation pair := (list F * list F)%type.
Local Abbreviation TModule := (@TorchModule F).
Local Abbreviation op := (@operator F).

(** The four primitives [cd.py] imports from [cd_propagate]. *)
Variable propagate_conv_linear : vec -> vec -> op -> result pair.
Variable propagate_relu : vec -> vec -> op -> result pair.
Variable propagate_pooling : vec -> vec -> op -> option string -> result pair.
Variable propagate_dropout : vec -> vec -> op -> result pair.

(** The objects [cd] receives by reference: [model] (as the list
    [model.modules()] enumerates), the caller's [mask] array and [im_torch]. *)
Record heap := {
  h_model : list TModule;
  h_mask : vec;
  h_im : vec
}.

Definition set_training (b : bool) (m : TModule) : TModule :=
  {| type_str := type_str m; weight := weight m; bias := bias m;
     kernel_size := kernel_size m; training := b |}.

(** [model.eval()]: clears the training flag of every module. *)
Definition model_eval (model : list TModule) : list TModule :=
  set_training false <$> model.

(** The learned parameters and options of a module: all but the mode flag. *)
Definition module_params (m : TModule) :=
  (type_str m, weight m, bias m, kernel_size m).

(** One iteration of the loop of [cd] (lines 44-57).  On flattened tensors
    the two [reshape] calls of the [Linear] branch change nothing. *)
Definition cd_step (p : pair) (mod_ : TModule) : result pair :=
  let '(relevant, irrelevant) := p in
  let t := type_str mod_ in
  if py_in "Conv2d" t then
    propagate_conv_linear relevant irrelevant (OpModule mod_)
  else if py_in "Linear" t then
    propagate_conv_linear relevant irrelevant (OpModule mod_)
  else if py_in "ReLU" t then
    propagate_relu relevant irrelevant (OpModule mod_)
  else if py_in "MaxPool2d" t then
    propagate_pooling relevant irrelevant (OpModule mod_) None
  else if py_in "Dropout" t then
    propagate_dropout relevant irrelevant (OpModule mod_)
  else Ok (relevant, irrelevant).

Fixpoint cd_loop (mods : list TModule) (p : pair) : result pair :=
  match mods with
  | [] => Ok p
  | mod_ :: rest => p' ← cd_step p mod_; cd_loop rest p'
  end.

(** [x.view(-1, 320)] on a flattened tensor. *)
Definition view_320 (x : vec) : result vec :=
  if length x mod 320 =? 0 then Ok x else Raise RuntimeError.

Definition cd_propagate_mnist (relevant irrelevant : vec) (model : list TModule)
  : result pair :=
  let mods := drop 1 model in
  m ← py_index mods 0;
  '(relevant, irrelevant) ← propagate_conv_linear relevant irrelevant (OpModule m);
  '(relevant, irrelevant) ← propagate_pooling relevant irrelevant (OpMaxPool2dFn 2) None;
  '(relevant, irrelevant) ← propagate_relu relevant irrelevant OpReluFn;
  m ← py_index mods 1;
  '(relevant, irrelevant) ← propagate_conv_linear relevant irrelevant (OpModule m);
  '(relevant, irrelevant) ← propagate_pooling relevant irrelevant (OpMaxPool2dFn 2) None;
  '(relevant, irrelevant) ← propagate_relu relevant irrelevant OpReluFn;
  relevant ← view_320 relevant;
  irrelevant ← view_320 irrelevant;
  m ← py_index mods 3;
  '(relevant, irrelevant) ← propagate_conv_linear relevant irrelevant (OpModule m);
  '(relevant, irrelevant) ← propagate_relu relevant irrelevant OpReluFn;
  m ← py_index mods 4;
  '(relevant, irrelevant) ← propagate_conv_linear relevant irrelevant (OpModule m);
  Ok (relevant, irrelevant).

(** [1 - mask]. *)
Definition one_minus (mask : vec) : vec := Fsub Fone <$> mask.

(** [cd(mask, im_torch, model, model_type, device)]: the value returned (or
    the exception raised) and the heap it leaves.  [mask] is taken with the
    shape of [im_torch]; [.to(device)] and [torch.FloatTensor(mask)] produce
    tensors of the same entries and leave their arguments alone. *)
Definition cd (h : heap) (model_type : option string) (device : string)
  : result pair * heap :=
  let h' := {| h_model := model_eval (h_model h);
               h_mask := h_mask h; h_im := h_im h |} in
  let im_torch := h_im h' in
  let mask := h_mask h' in
  let relevant := vmul mask im_torch in
  let irrelevant := vmul (one_minus mask) im_torch in
  let model := h_model h' in
  (if decide (model_type = Some "mnist"%string)
   then cd_propagate_mnist relevant irrelevant model
   else cd_loop model (relevant, irrelevant),
   h').

(** *** [cd_track_vgg] *)

(** The state of [cd_track_vgg]: the current pair and the list [scores]. *)
Definition tracked := (pair * list pair)%type.

(** [relevant, irrelevant = propagate_conv_linear(relevant, irrelevant, mods[k])]
    followed by [scores.append((relevant.clone(), irrelevant.clone()))]. *)
Definition conv_append (mods : list TModule) (k : nat) (st : tracked)
  : result tracked :=
  m ← py_index mods k;
  p ← propagate_conv_linear st.1.1 st.1.2 (OpModule m);
  Ok (p, st.2 ++ [p]).

Definition conv_only (mods : list TModule) (k : nat) (st : tracked)
  : result tracked :=
  m ← py_index mods k;
  p ← propagate_conv_linear st.1.1 st.1.2 (OpModule m);
  Ok (p, st.2).

Definition relu_at (mods : list TModule) (k : nat) (st : tracked)
  : result tracked :=
  m ← py_index mods k;
  p ← propagate_relu st.1.1 st.1.2 (OpModule m);
  Ok (p, st.2).

Definition pool_at (model_type : option string) (mods : list TModule) (k : nat)
    (st : tracked) : result tracked :=
  m ← py_index mods k;
  p ← propagate_pooling st.1.1 st.1.2 (OpModule m) model_type;
  Ok (p, st.2).

Definition dropout_at (mods : list TModule) (k : nat) (st : tracked)
  : result tracked :=
  m ← py_index mods k;
  p ← propagate_dropout st.1.1 st.1.2 (OpModule m);
  Ok (p, st.2).

(** [cd_track_vgg(blob, im_torch, model, model_type)] (lines 179-293), one
    line of the model per propagation call of the source; the two [view]
    calls before the classifier change nothing on flattened tensors.  The
    model is returned in evaluation mode. *)
Definition cd_track_vgg (h : heap) (model_type : option string)
  : result (vec * vec * list pair) * heap :=
  let h' := {| h_model := model_eval (h_model h);
               h_mask := h_mask h; h_im := h_im h |} in
  let blob := h_mask h' in
  let im_torch := h_im h' in
  let relevant := vmul blob im_torch in
  let irrelevant := vmul (one_minus blob) im_torch in
  let mods := drop 2 (h_model h') in
  let pool := pool_at model_type in
  (st ← conv_append mods 0 ((relevant, irrelevant), []);
   st ← relu_at mods 1 st;
   st ← conv_append mods 2 st;
   st ← relu_at mods 3 st;
   st ← pool mods 4 st;
   st ← conv_append mods 5 st;
   st ← relu_at mods 6 st;
   st ← conv_append mods 7 st;
   st ← relu_at mods 8 st;
   st ← pool mods 9 st;
   st ← conv_append mods 10 st;
   st ← relu_at mods 11 st;
   st ← conv_append mods 12 st;
   st ← relu_at mods 13 st;
   st ← conv_append mods 14 st;
   st ← relu_at mods 15 st;
   st ← pool mods 16 st;
   st ← conv_append mods 17 st;
   st ← relu_at mods 18 st;
   st ← conv_append mods 19 st;
   st ← relu_at mods 20 st;
   st ← conv_append mods 21 st;
   st ← relu_at mods 22 st;
   st ← pool mods 23 st;
   st ← conv_append mods 24 st;
   st ← relu_at mods 25 st;
   st ← conv_append mods 26 st;
   st ← relu_at mods 27 st;
   st ← conv_append mods 28 st;
   st ← relu_at mods 29 st;
   st ← pool mods 30 st;
   st ← conv_only mods 32 st;
   st ← relu_at mods 33 st;
   st ← dropout_at mods 34 st;
   st ← conv_only mods 35 st;
   st ← relu_at mods 36 st;
   st ← dropout_at mods 37 st;
   st ← conv_only mods 38 st;
   Ok (st.1.1, st.1.2, st.2),
   h').

(** The test of the five [if]/[elif] branches of the loop of [cd]: the module
    is of a kind the loop propagates. *)
Definition recognized (t : string) : bool :=
  py_in "Conv2d" t || py_in "Linear" t || py_in "ReLU" t
  || py_in "MaxPool2d" t || py_in "Dropout" t.

(** The module is dispatched to [propagate_dropout]. *)
Definition dispatched_to_dropout (t : string) : bool :=
  negb (py_in "Conv2d" t) && negb (py_in "Linear" t) && negb (py_in "ReLU" t)
  && negb (py_in "MaxPool2d" t) && py_in "Dropout" t.

(** The layers of a model: the modules that are propagated through. *)
Definition layers (model : list TModule) : list TModule :=
  filter (fun m => recognized (type_str m) = true) model.

(** Modelled from the spec: what [propagate_dropout] of the missing
    [cd_propagate] guarantees on a layer in evaluation mode: "in inference
    mode this is a no-op pass-through". *)
Definition dropout_noop_in_eval : Prop :=
  forall (r i : vec) (m : TModule),
    training m = false -> propagate_dropout r i (OpModule m) = Ok (r, i).

(** The indices (in [mods]) after which [cd_track_vgg] appends a snapshot. *)
Definition snapshot_indices : list nat :=
  [0; 2; 5; 7; 10; 12; 14; 17; 19; 21; 24; 26; 28].

(** A propagation call of [cd_track_vgg]: the primitive called and the index
    in [mods] of the module it is given. *)
Inductive call :=
| CallConvLinear (k : nat)
| CallRelu (k : nat)
| CallPooling (k : nat)
| CallDropout (k : nat).

(** The 38 propagation calls of lines 198-291, in the order of the source
    (the appends left out): the call on [mods[k]] is the [k]-th one up to
    [k = 30]; no call is made on [mods[31]], the [classifier] container. *)
Definition vgg_calls : list call :=
  [ CallConvLinear 0; CallRelu 1; CallConvLinear 2; CallRelu 3; CallPooling 4;
    CallConvLinear 5; CallRelu 6; CallConvLinear 7; CallRelu 8; CallPooling 9;
    CallConvLinear 10; CallRelu 11; CallConvLinear 12; CallRelu 13;
    CallConvLinear 14; CallRelu 15; CallPooling 16;
    CallConvLinear 17; CallRelu 18; CallConvLinear 19; CallRelu 20;
    CallConvLinear 21; CallRelu 22; CallPooling 23;
    CallConvLinear 24; CallRelu 25; CallConvLinear 26; CallRelu 27;
    CallConvLinear 28; CallRelu 29; CallPooling 30;
    CallConvLinear 32; CallRelu 33; CallDropout 34;
    CallConvLinear 35; CallRelu 36; CallDropout 37;
    CallConvLinear 38 ].

(** [relevant, irrelevant = propagate_...(relevant, irrelevant, mods[k])]. *)
Definition run_call (model_type : option string) (mods : list TModule)
    (p : pair) (c : call) : result pair :=
  match c with
  | CallConvLinear k =>
    m ← py_index mods k; propagate_conv_linear p.1 p.2 (OpModule m)
  | CallRelu k =>
    m ← py_index mods k; propagate_relu p.1 p.2 (OpModule m)
  | CallPooling k =>
    m ← py_index mods k; propagate_pooling p.1 p.2 (OpModule m) model_type
  | CallDropout k =>
    m ← py_index mods k; propagate_dropout p.1 p.2 (OpModule m)
  end.

(** The pair held after a sequence of calls. *)
Fixpoint run_calls (model_type : option string) (mods : list TModule)
    (cs : list call) (p : pair) : result pair :=
  match cs with
  | [] => Ok p
  | c :: rest => p' ← run_call model_type mods p c; run_calls model_type mods rest p'
  end.

(** [p] is the snapshot taken at the convolution [mods[k]] in a run started
    from the pair [p0]: the linear primitive returned [p] for [mods[k]] and
    the pair [q] held after the calls before that one, and [p] is the pair
    the next call, the ReLU [mods[k+1]], was given. *)
Definition snapshot_at (model_type : option string) (mods : list TModule)
    (p0 : pair) (k : nat) (p : pair) : Prop :=
  vgg_calls !! k = Some (CallConvLinear k) /\
  vgg_calls !! (S k) = Some (CallRelu (S k)) /\
  exists (q : pair) (m m' : TModule) (p' : pair),
    run_calls model_type mods (take k vgg_calls) p0 = Ok q /\
    mods !! k = Some m /\
    propagate_conv_linear q.1 q.2 (OpModule m) = Ok p /\
    run_calls model_type mods (take (S k) vgg_calls) p0 = Ok p /\
    mods !! (S k) = Some m' /\
    propagate_relu p.1 p.2 (OpModule m') = Ok p' /\
    run_calls model_type mods (take (S (S k)) vgg_calls) p0 = Ok p'.

(** *** Facts about the monad and the loop *)

Lemma bind_Ok_inv {A B} (c : result A) (k : A -> result B) (b : B) :
  c ≫= k = Ok b -> exists a, c = Ok a /\ k a = Ok b.
Proof. destruct c as [a|e]; [by exists a | discriminate]. Qed.

Lemma cd_loop_app mods1 mods2 p :
  cd_loop (mods1 ++ mods2) p = cd_loop mods1 p ≫= cd_loop mods2.
Proof.
  revert p. induction mods1 as [|m mods1 IH]; intros p; [done|].
  simpl. destruct (cd_step p m) as [p'|e]; [apply IH | done].
Qed.

(** A module on which the loop body is the identity can be left out. *)
Lemma cd_loop_skip pre m post p :
  (forall q, cd_step q m = Ok q) ->
  cd_loop (pre ++ m :: post) p = cd_loop (pre ++ post) p.
Proof.
  intros Hid. rewrite !cd_loop_app.
  destruct (cd_loop pre p) as [q|e]; [|done].
  simpl. by rewrite Hid.
Qed.

Lemma cd_step_unrecognized p m :
  recognized (type_str m) = false -> cd_step p m = Ok p.
Proof.
  unfold recognized, cd_step. destruct p as [r i]. intros H.
  repeat (apply orb_false_elim in H; destruct H as [H ?]).
  by repeat match goal with E : py_in _ _ = false |- _ => rewrite E; clear E end.
Qed.

Lemma cd_step_dropout p m :
  dropout_noop_in_eval ->
  dispatched_to_dropout (type_str m) = true ->
  training m = false ->
  cd_step p m = Ok p.
Proof.
  unfold dispatched_to_dropout, cd_step. destruct p as [r i]. intros Hd H Ht.
  repeat (apply andb_prop in H; destruct H as [H ?]).
  repeat match goal with
         | E : negb (py_in _ _) = true |- _ =>
           apply negb_true_iff in E; rewrite E; clear E
         | E : py_in _ _ = true |- _ => rewrite E; clear E
         end.
  by apply Hd.
Qed.

Lemma model_eval_app l1 l2 :
  model_eval (l1 ++ l2) = model_eval l1 ++ model_eval l2.
Proof. apply fmap_app. Qed.

Lemma model_eval_params l1 l2 :
  module_params <$> l1 = module_params <$> l2 -> model_eval l1 = model_eval l2.
Proof.
  revert l2. induction l1 as [|a l1 IH]; intros [|b l2] H; try discriminate; [done|].
  simpl in H. injection H as Ht Hw Hb Hk Hrest.
  unfold model_eval. simpl. f_equal; [|by apply IH].
  unfold set_training. by rewrite Ht, Hw, Hb, Hk.
Qed.

Lemma model_eval_keeps_params l :
  module_params <$> model_eval l = module_params <$> l.
Proof. unfold model_eval. rewrite <- list_fmap_compose. by apply list_fmap_ext. Qed.

Lemma model_eval_training l :
  Forall (fun m => training m = false) (model_eval l).
Proof. unfold model_eval. apply Forall_fmap, Forall_true. done. Qed.

(** *** Steps of [cd_track_vgg] *)

Lemma py_index_Ok {A} (l : list A) k a : py_index l k = Ok a -> l !! k = Some a.
Proof. unfold py_index. destruct (l !! k); [by intros [= ->] | discriminate]. Qed.

Lemma py_index_lookup {A} (l : list A) k a : l !! k = Some a -> py_index l k = Ok a.
Proof. unfold py_index. by intros ->. Qed.

(** A step of [cd_track_vgg] that returns: the module it read, the call it
    made on the pair it held, and what became of [scores]. *)
Lemma conv_append_inv mt mods k st st' :
  conv_append mods k st = Ok st' ->
  (exists m, mods !! k = Some m /\
             propagate_conv_linear st.1.1 st.1.2 (OpModule m) = Ok st'.1) /\
  run_call mt mods st.1 (CallConvLinear k) = Ok st'.1 /\
  st'.2 = st.2 ++ [st'.1].
Proof.
  unfold conv_append, run_call. intros H.
  apply bind_Ok_inv in H as (m & Hm & H).
  apply bind_Ok_inv in H as (p & Hp & H).
  injection H as <-. rewrite Hm. apply py_index_Ok in Hm. cbn. eauto.
Qed.

Lemma conv_only_inv mt mods k st st' :
  conv_only mods k st = Ok st' ->
  run_call mt mods st.1 (CallConvLinear k) = Ok st'.1 /\ st'.2 = st.2.
Proof.
  unfold conv_only, run_call. intros H.
  apply bind_Ok_inv in H as (m & Hm & H).
  apply bind_Ok_inv in H as (p & Hp & H).
  injection H as <-. rewrite Hm. cbn. eauto.
Qed.

Lemma relu_at_inv mt mods k st st' :
  relu_at mods k st = Ok st' ->
  (exists m, mods !! k = Some m /\
             propagate_relu st.1.1 st.1.2 (OpModule m) = Ok st'.1) /\
  run_call mt mods st.1 (CallRelu k) = Ok st'.1 /\
  st'.2 = st.2.
Proof.
  unfold relu_at, run_call. intros H.
  apply bind_Ok_inv in H as (m & Hm & H).
  apply bind_Ok_inv in H as (p & Hp & H).
  injection H as <-. rewrite Hm. apply py_index_Ok in Hm. cbn. eauto.
Qed.

Lemma pool_at_inv mt mods k st st' :
  pool_at mt mods k st = Ok st' ->
  run_call mt mods st.1 (CallPooling k) = Ok st'.1 /\ st'.2 = st.2.
Proof.
  unfold pool_at, run_call. intros H.
  apply bind_Ok_inv in H as (m & Hm & H).
  apply bind_Ok_inv in H as (p & Hp & H).
  injection H as <-. rewrite Hm. cbn. eauto.
Qed.

Lemma dropout_at_inv mt mods k st st' :
  dropout_at mods k st = Ok st' ->
  run_call mt mods st.1 (CallDropout k) = Ok st'.1 /\ st'.2 = st.2.
Proof.
  unfold dropout_at, run_call. intros H.
  apply bind_Ok_inv in H as (m & Hm & H).
  apply bind_Ok_inv in H as (p & Hp & H).
  injection H as <-. rewrite Hm. cbn. eauto.
Qed.

(** Replays the calls of a prefix of [vgg_calls] from the steps that
    returned. *)
Ltac replay_calls :=
  match goal with
  | |- context [take ?n vgg_calls] =>
    let l := eval vm_compute in (take n vgg_calls) in
    change (take n vgg_calls) with l
  | |- context [run_calls _ _ vgg_calls _] => unfold vgg_calls
  end;
  repeat (cbn [run_calls mbind result_bind];
          match goal with
          | E : run_call _ _ ?p ?c = Ok _ |- context [run_call _ _ ?p ?c] =>
            rewrite E
          end);
  cbn [run_calls mbind result_bind].

(** *** Properties of [cd] and [cd_track_vgg] *)

(** C6. In the loop of [cd], a module whose type matches none of the five
    tests (Conv2d, Linear, ReLU, MaxPool2d, Dropout) leaves the pair as it
    is and raises nothing: the loop body returns the pair unchanged, and the
    loop, and [cd] itself, return what they return without that module. *)
Theorem cd_unrecognized_passthrough (m : TModule) (r i : vec)
    (pre post : list TModule) (mask im : vec) (model_type : option string)
    (device : string) :
  recognized (type_str m) = false ->
  cd_step (r, i) m = Ok (r, i) /\
  cd_loop (pre ++ m :: post) (r, i) = cd_loop (pre ++ post) (r, i) /\
  (model_type <> Some "mnist"%string ->
   (cd {| h_model := pre ++ m :: post; h_mask := mask; h_im := im |}
       model_type device).1
   = (cd {| h_model := pre ++ post; h_mask := mask; h_im := im |}
         model_type device).1).
Proof.
  intros Hm. split; [by apply cd_step_unrecognized|].
  split; [apply cd_loop_skip; intros q; by apply cd_step_unrecognized|].
  intros Hmt. unfold cd. simpl.
  destruct (decide (model_type = Some "mnist"%string)) as [|_]; [done|].
  rewrite !model_eval_app. simpl.
  apply cd_loop_skip. intros q. by apply cd_step_unrecognized.
Qed.

(** C8 (as amended). When [cd_track_vgg] returns, its third component holds
    exactly thirteen snapshots, one for each of the thirteen convolutions
    [mods[0], mods[2], ..., mods[28]] of the feature extractor and in that
    order.  Each is the pair the linear primitive returned for that
    convolution on the pair propagated up to it, taken before the ReLU that
    follows (which receives it); nothing is recorded after a ReLU, a
    pooling, a dropout or a fully connected layer.  The pair returned is the
    one held after the 38 calls, the last on the fully connected layer
    [mods[38]]. *)
Theorem cd_track_vgg_snapshots (h : heap) (model_type : option string)
    (r i : vec) (scores : list pair) :
  (cd_track_vgg h model_type).1 = Ok (r, i, scores) ->
  let mods := drop 2 (model_eval (h_model h)) in
  let p0 := (vmul (h_mask h) (h_im h), vmul (one_minus (h_mask h)) (h_im h)) in
  length scores = 13 /\
  Forall2 (snapshot_at model_type mods p0) snapshot_indices scores /\
  run_calls model_type mods vgg_calls p0 = Ok (r, i).
Proof.
  intros H. cbv zeta.
  set (mods := drop 2 (model_eval (h_model h))).
  set (p0 := (vmul (h_mask h) (h_im h), vmul (one_minus (h_mask h)) (h_im h))).
  unfold cd_track_vgg in H. cbn [fst h_model h_mask h_im] in H.
  change (drop 2 (model_eval (h_model h))) with mods in H.
  change (vmul (h_mask h) (h_im h), vmul (one_minus (h_mask h)) (h_im h))
    with p0 in H.
  repeat (apply bind_Ok_inv in H as (? & ? & H); cbv beta in H).
  injection H as <- <- <-.
  repeat match goal with
         | E : conv_append _ _ _ = Ok _ |- _ =>
           apply (conv_append_inv model_type) in E as ((? & ? & ?) & ? & ?)
         | E : relu_at _ _ _ = Ok _ |- _ =>
           apply (relu_at_inv model_type) in E as ((? & ? & ?) & ? & ?)
         | E : pool_at _ _ _ _ = Ok _ |- _ => apply pool_at_inv in E as [? ?]
         | E : dropout_at _ _ _ = Ok _ |- _ =>
           apply (dropout_at_inv model_type) in E as [? ?]
         | E : conv_only _ _ _ = Ok _ |- _ =>
           apply (conv_only_inv model_type) in E as [? ?]
         end.
  cbn [fst snd] in *.
  repeat match goal with E : _.2 = _ |- _ => rewrite E; clear E end.
  cbn [app]. split; [reflexivity|]. split.
  - unfold snapshot_indices.
    repeat (constructor;
            [ split; [reflexivity|]; split; [reflexivity|];
              eexists _, _, _, _;
              split; [replay_calls; reflexivity|]; cbn [fst snd];
              split; [eassumption|]; split; [eassumption|];
              split; [by replay_calls|];
              split; [eassumption|]; split; [eassumption|];
              by replay_calls
            | ]).
    constructor.
  - replay_calls.
    by match goal with |- Ok ?y.1 = Ok (?y.1.1, ?y.1.2) =>
         destruct y as [[? ?] ?] end.
Qed.

(** C10. [cd] leaves the parameters and options of every module, the
    caller's mask and the input as they were; its one effect is
    [model.eval()]: afterwards every module is in evaluation mode.  The value
    returned does not depend on the mode the model was in before the call,
    and (the dropout primitive being the identity in evaluation mode) a
    module dispatched to [propagate_dropout] acts as the identity in the
    loop: the result is the one obtained without that module. *)
Theorem cd_frame (h : heap) (model_type : option string) (device : string) :
  dropout_noop_in_eval ->
  let out := cd h model_type device in
  module_params <$> h_model out.2 = module_params <$> h_model h /\
  h_mask out.2 = h_mask h /\
  h_im out.2 = h_im h /\
  h_model out.2 = model_eval (h_model h) /\
  Forall (fun m => training m = false) (h_model out.2) /\
  (forall h2, module_params <$> h_model h2 = module_params <$> h_model h ->
              h_mask h2 = h_mask h -> h_im h2 = h_im h ->
              (cd h2 model_type device).1 = out.1) /\
  (forall pre m post,
     h_model h = pre ++ m :: post ->
     dispatched_to_dropout (type_str m) = true ->
     model_type <> Some "mnist"%string ->
     out.1 = (cd {| h_model := pre ++ post; h_mask := h_mask h; h_im := h_im h |}
                 model_type device).1).
Proof.
  intros Hdrop out. subst out. unfold cd. cbn [fst snd h_model h_mask h_im].
  split; [apply model_eval_keeps_params|].
  do 3 (split; [reflexivity|]).
  split; [apply model_eval_training|]. split.
  - intros h2 Hp Hm Hi. by rewrite (model_eval_params _ _ Hp), Hm, Hi.
  - intros pre m post Hh Hd Hmt. rewrite Hh.
    destruct (decide (model_type = Some "mnist"%string)) as [|_]; [done|].
    rewrite !model_eval_app. cbn [model_eval fmap list_fmap].
    apply cd_loop_skip. intros q. by apply cd_step_dropout.
Qed.

(** *** Further properties of the layer-wise propagators *)

Add Ring Fring_prop : F_ring.

(** The pair [cd] starts from (lines 35-37). *)
Definition initial_pair (h : heap) : pair :=
  (vmul (h_mask h) (h_im h), vmul (one_minus (h_mask h)) (h_im h)).

Lemma cd_loop_unrecognized mods p :
  Forall (fun m => recognized (type_str m) = false) mods -> cd_loop mods p = Ok p.
Proof.
  induction 1 as [|m mods Hm _ IH]; [done|].
  cbn. by rewrite (cd_step_unrecognized p m Hm).
Qed.

Lemma model_eval_unrecognized mods :
  Forall (fun m => recognized (type_str m) = false) mods ->
  Forall (fun m => recognized (type_str m) = false) (model_eval mods).
Proof. intros H. unfold model_eval. by apply Forall_fmap. Qed.

(** X1. The split [cd] starts from is exact: with a mask of the shape of the
    input, [mask * im_torch] and [(1 - mask) * im_torch] add up to
    [im_torch]; where the mask is 1 the relevant part is the input and the
    irrelevant part 0, and where it is 0 the other way round.  A model none
    of whose modules is propagated (no modules, or containers only) returns
    this pair. *)
Theorem cd_initial_split_exact (h : heap) (model_type : option string)
    (device : string) :
  length (h_mask h) = length (h_im h) ->
  Forall (fun m => recognized (type_str m) = false) (h_model h) ->
  model_type <> Some "mnist"%string ->
  (cd h model_type device).1 = Ok (initial_pair h) /\
  vadd (initial_pair h).1 (initial_pair h).2 = h_im h /\
  forall k, k < length (h_im h) ->
    (vnth (h_mask h) k = Fone ->
       vnth (initial_pair h).1 k = vnth (h_im h) k /\
       vnth (initial_pair h).2 k = Fzero) /\
    (vnth (h_mask h) k = Fzero ->
       vnth (initial_pair h).1 k = Fzero /\
       vnth (initial_pair h).2 k = vnth (h_im h) k).
Proof.
  intros Hl Hm Hmt. unfold initial_pair, one_minus. cbn [fst snd].
  split; [|split].
  - unfold cd. cbn [fst h_model h_mask h_im].
    destruct (decide (model_type = Some "mnist"%string)) as [|_]; [done|].
    by apply cd_loop_unrecognized, model_eval_unrecognized.
  - vec_pointwise. ring.
  - intros k Hk.
    rewrite !vnth_vmul, vnth_fmap by (rewrite ?length_fmap; lia).
    split; intros ->; split; ring.
Qed.

(** X2. A layer that raises ends the propagation: [cd] raises the same
    exception, whatever modules follow, and the model has been switched to
    evaluation mode all the same. *)
Theorem cd_raises_at_first_failure (h : heap) (pre post : list TModule)
    (m : TModule) (q : pair) (e : exn) (model_type : option string)
    (device : string) :
  h_model h = pre ++ m :: post ->
  model_type <> Some "mnist"%string ->
  cd_loop (model_eval pre) (initial_pair h) = Ok q ->
  cd_step q (set_training false m) = Raise e ->
  (cd h model_type device).1 = Raise e /\
  h_model (cd h model_type device).2 = model_eval (h_model h) /\
  forall post',
    (cd {| h_model := pre ++ m :: post'; h_mask := h_mask h; h_im := h_im h |}
        model_type device).1 = Raise e.
Proof.
  intros Hh Hmt Hpre Hm.
  assert (Hgen : forall post',
    (cd {| h_model := pre ++ m :: post'; h_mask := h_mask h; h_im := h_im h |}
        model_type device).1 = Raise e).
  { intros post'. unfold cd. cbn [fst h_model h_mask h_im].
    destruct (decide (model_type = Some "mnist"%string)) as [|_]; [done|].
    rewrite model_eval_app, cd_loop_app.
    unfold initial_pair in Hpre. rewrite Hpre. cbn.
    by rewrite Hm. }
  split; [|split; [reflexivity | exact Hgen]].
  specialize (Hgen post). rewrite <- Hh in Hgen.
  by destruct h.
Qed.

(** *** The type test of the loop *)

Lemma starts_with_prefix needle hay :
  starts_with needle hay = true <-> exists post, hay = String.append needle post.
Proof.
  revert hay. induction needle as [|a needle IH]; intros hay; cbn.
  - split; [by exists hay | done].
  - destruct hay as [|b hay]; [split; [done | by intros [post ?]]|].
    destruct (Ascii.eqb a b) eqn:E.
    + apply Ascii.eqb_eq in E as ->. rewrite IH.
      split; intros [post Hp]; exists post; [by rewrite Hp | by injection Hp].
    + split; [done|]. intros [post Hp]. injection Hp as -> _.
      by rewrite Ascii.eqb_refl in E.
Qed.

Lemma py_in_substring needle hay :
  py_in needle hay = true <->
  exists pre post, hay = String.append pre (String.append needle post).
Proof.
  induction hay as [|b hay IH]; cbn [py_in].
  - rewrite starts_with_prefix. split.
    + intros [post Hp]. by exists EmptyString, post.
    + intros ([|c pre] & post & Hp); [by exists post | discriminate].
  - rewrite orb_true_iff, starts_with_prefix, IH. split.
    + intros [[post Hp] | (pre & post & Hp)].
      * by exists EmptyString, post.
      * exists (String b pre), post. cbn. by rewrite Hp.
    + intros ([|c pre] & post & Hp).
      * left. by exists post.
      * right. cbn in Hp. injection Hp as -> Hp. by exists pre, post.
Qed.

(** The five names the loop of [cd] looks for. *)
Definition layer_names : list string :=
  ["Conv2d"; "Linear"; "ReLU"; "MaxPool2d"; "Dropout"]%string.

(** [name] occurs somewhere in the text [t]. *)
Definition occurs_in (name t : string) : Prop :=
  exists pre post, t = String.append pre (String.append name post).

Lemma py_in_true name t : occurs_in name t -> py_in name t = true.
Proof. apply py_in_substring. Qed.

Lemma py_in_false name t : ~ occurs_in name t -> py_in name t = false.
Proof.
  intros H. destruct (py_in name t) eqn:E; [|done].
  by apply py_in_substring in E.
Qed.

(** X3. The loop of [cd] tests the text of a module's type for substrings,
    in the order of its branches: a module in whose [str(type(mod))] one of
    the five names occurs somewhere (so also inside a longer class name) is
    given to the primitive of the first name that occurs, with the current
    pair, and [cd_step] returns or raises what that primitive does; a module
    in whose type none occurs is passed through. *)
Theorem cd_step_by_substring (p : pair) (m : TModule) :
  let t := type_str m in
  (occurs_in "Conv2d" t \/ occurs_in "Linear" t ->
   cd_step p m = propagate_conv_linear p.1 p.2 (OpModule m)) /\
  (~ occurs_in "Conv2d" t -> ~ occurs_in "Linear" t -> occurs_in "ReLU" t ->
   cd_step p m = propagate_relu p.1 p.2 (OpModule m)) /\
  (~ occurs_in "Conv2d" t -> ~ occurs_in "Linear" t -> ~ occurs_in "ReLU" t ->
   occurs_in "MaxPool2d" t ->
   cd_step p m = propagate_pooling p.1 p.2 (OpModule m) None) /\
  (~ occurs_in "Conv2d" t -> ~ occurs_in "Linear" t -> ~ occurs_in "ReLU" t ->
   ~ occurs_in "MaxPool2d" t -> occurs_in "Dropout" t ->
   cd_step p m = propagate_dropout p.1 p.2 (OpModule m)) /\
  ((forall name, name ∈ layer_names -> ~ occurs_in name t) ->
   cd_step p m = Ok p).
Proof.
  destruct p as [r i]. cbn zeta. unfold cd_step. cbn [fst snd].
  repeat split.
  - intros [H|H].
    + by rewrite (py_in_true _ _ H).
    + rewrite (py_in_true _ _ H). by destruct (py_in "Conv2d" (type_str m)).
  - intros H1 H2 H3.
    by rewrite (py_in_false _ _ H1), (py_in_false _ _ H2), (py_in_true _ _ H3).
  - intros H1 H2 H3 H4.
    by rewrite (py_in_false _ _ H1), (py_in_false _ _ H2), (py_in_false _ _ H3),
      (py_in_true _ _ H4).
  - intros H1 H2 H3 H4 H5.
    by rewrite (py_in_false _ _ H1), (py_in_false _ _ H2), (py_in_false _ _ H3),
      (py_in_false _ _ H4), (py_in_true _ _ H5).
  - intros H. unfold layer_names in H.
    rewrite !py_in_false; [done|apply H; repeat constructor..].
Qed.

(** *** The fixed pipelines read the model by position *)

Lemma py_index_drop {A} (n k : nat) (l l' : list A) :
  l !! (n + k) = l' !! (n + k) -> py_index (drop n l) k = py_index (drop n l') k.
Proof. intros H. unfold py_index. by rewrite !lookup_drop, H. Qed.

Lemma py_index_lt {A} (l : list A) k a : py_index l k = Ok a -> k < length l.
Proof. intros H. apply py_index_Ok in H. by eapply lookup_lt_Some. Qed.

(** X4. [cd_propagate_mnist] reads the modules at positions 1, 2, 4 and 5 of
    [model.modules()] and no other: the model itself (position 0), the
    module at position 3 (the dropout layer of the MNIST network) and any
    module after position 5 have no influence on what it returns or
    raises. *)
Theorem cd_propagate_mnist_reads_four (relevant irrelevant : vec)
    (model model' : list TModule) :
  (forall k, k ∈ [1; 2; 4; 5] -> model !! k = model' !! k) ->
  cd_propagate_mnist relevant irrelevant model
  = cd_propagate_mnist relevant irrelevant model'.
Proof.
  intros H. unfold cd_propagate_mnist.
  rewrite (py_index_drop 1 0 model model') by (apply H; repeat constructor).
  rewrite (py_index_drop 1 1 model model') by (apply H; repeat constructor).
  rewrite (py_index_drop 1 3 model model') by (apply H; repeat constructor).
  by rewrite (py_index_drop 1 4 model model') by (apply H; repeat constructor).
Qed.

(** X5. [cd_propagate_mnist] returns only for a model of at least six
    modules; on a model with at most one module it raises [IndexError]
    before any primitive is called. *)
Theorem cd_propagate_mnist_needs_six (relevant irrelevant : vec)
    (model : list TModule) :
  (length model <= 1 ->
   cd_propagate_mnist relevant irrelevant model = Raise IndexError) /\
  (forall p, cd_propagate_mnist relevant irrelevant model = Ok p ->
             6 <= length model).
Proof.
  split.
  - intros Hl. unfold cd_propagate_mnist, py_index.
    by rewrite (lookup_drop model 1 0), (lookup_ge_None_2 model (1 + 0)) by lia.
  - intros p H. unfold cd_propagate_mnist in H.
    repeat (apply bind_Ok_inv in H as ([? ?] & ? & H) ||
            apply bind_Ok_inv in H as (? & ? & H);
            cbv beta iota in H).
    match goal with
    | E : py_index (drop 1 model) 4 = Ok _ |- _ =>
      apply py_index_lt in E; rewrite length_drop in E; lia
    end.
Qed.

Lemma eval_drop_lookup (n k : nat) (l l' : list TModule) :
  l !! (n + k) = l' !! (n + k) ->
  drop n (model_eval l) !! k = drop n (model_eval l') !! k.
Proof.
  intros H. unfold model_eval. by rewrite !lookup_drop, !list_lookup_fmap, H.
Qed.

(** X6. [cd_track_vgg] reads the modules at positions 2 to 32 and 34 to 40 of
    [model.modules()] and no other: the model, the [features] container
    (positions 0 and 1), the [classifier] container (position 33) and any
    module after position 40 have no influence on what it returns or
    raises. *)
Theorem cd_track_vgg_reads_by_position (h h' : heap)
    (model_type : option string) :
  h_mask h = h_mask h' ->
  h_im h = h_im h' ->
  (forall k, 2 <= k <= 40 -> k <> 33 -> h_model h !! k = h_model h' !! k) ->
  (cd_track_vgg h model_type).1 = (cd_track_vgg h' model_type).1.
Proof.
  intros Hm Hi Hk. unfold cd_track_vgg. cbn [fst h_model h_mask h_im].
  rewrite Hm, Hi.
  set (mods := drop 2 (model_eval (h_model h))).
  set (mods' := drop 2 (model_eval (h_model h'))).
  assert (Hmods : forall k, k <= 38 -> k <> 31 -> mods !! k = mods' !! k).
  { intros k H1 H2. apply eval_drop_lookup, Hk; lia. }
  unfold conv_append, conv_only, relu_at, pool_at, dropout_at, py_index.
  by rewrite !Hmods by lia.
Qed.

(** X7. [cd_track_vgg] returns only for a model of at least 41 modules; on a
    model with at most two modules it raises [IndexError] before any
    primitive is called. *)
Theorem cd_track_vgg_needs_41 (h : heap) (model_type : option string) :
  (length (h_model h) <= 2 ->
   (cd_track_vgg h model_type).1 = Raise IndexError) /\
  (forall x, (cd_track_vgg h model_type).1 = Ok x ->
             41 <= length (h_model h)).
Proof.
  split.
  - intros Hl. unfold cd_track_vgg, conv_append, py_index. cbn [fst h_model].
    rewrite (lookup_ge_None_2 (drop 2 _) 0); [done|].
    unfold model_eval. rewrite length_drop, length_fmap. lia.
  - intros x H. unfold cd_track_vgg in H. cbn [fst h_model h_mask h_im] in H.
    repeat (apply bind_Ok_inv in H as (? & ? & H); cbv beta in H).
    match goal with
    | E : conv_only _ 38 _ = Ok _ |- _ =>
      unfold conv_only in E; apply bind_Ok_inv in E as (? & E & _);
      apply py_index_lt in E; unfold model_eval in E;
      rewrite length_drop, length_fmap in E; lia
    end.
Qed.

(** *** The unrolled pipeline and the loop *)

(** The branch of the loop of [cd] a module is dispatched to. *)
Inductive layer_kind := KConvLinear | KReLU | KMaxPool | KDropout | KOther.

Definition dispatch (t : string) : layer_kind :=
  if py_in "Conv2d" t then KConvLinear
  else if py_in "Linear" t then KConvLinear
  else if py_in "ReLU" t then KReLU
  else if py_in "MaxPool2d" t then KMaxPool
  else if py_in "Dropout" t then KDropout
  else KOther.

Lemma cd_step_dispatch (p : pair) (m : TModule) :
  cd_step p m
  = match dispatch (type_str m) with
    | KConvLinear => propagate_conv_linear p.1 p.2 (OpModule m)
    | KReLU => propagate_relu p.1 p.2 (OpModule m)
    | KMaxPool => propagate_pooling p.1 p.2 (OpModule m) None
    | KDropout => propagate_dropout p.1 p.2 (OpModule m)
    | KOther => Ok p
    end.
Proof.
  unfold cd_step, dispatch. destruct p as [r i]. cbn [fst snd].
  by repeat match goal with |- context [py_in ?a ?b] => destruct (py_in a b) end.
Qed.

(** VGG-16 as [model.modules()] lists it (the comments of [cd_track_vgg]):
    the model, the [features] container with its 31 layers, the [classifier]
    container with its 7 layers. *)
Definition vgg16_layout : list layer_kind :=
  [ KOther; KOther;
    KConvLinear; KReLU; KConvLinear; KReLU; KMaxPool;
    KConvLinear; KReLU; KConvLinear; KReLU; KMaxPool;
    KConvLinear; KReLU; KConvLinear; KReLU; KConvLinear; KReLU; KMaxPool;
    KConvLinear; KReLU; KConvLinear; KReLU; KConvLinear; KReLU; KMaxPool;
    KConvLinear; KReLU; KConvLinear; KReLU; KConvLinear; KReLU; KMaxPool;
    KOther;
    KConvLinear; KReLU; KDropout; KConvLinear; KReLU; KDropout; KConvLinear ].

Definition has_layout (layout : list layer_kind) (model : list TModule) : Prop :=
  Forall2 (fun k m => dispatch (type_str m) = k) layout model.

(** The pair [cd_track_vgg] returns, without the snapshots. *)
Definition final_pair (x : result (vec * vec * list pair)) : result pair :=
  match x with
  | Ok (r, i, _) => Ok (r, i)
  | Raise e => Raise e
  end.

(** X8. On a model with the layout of VGG-16 the unrolled [cd_track_vgg]
    computes what the loop of [cd] computes: it returns the pair [cd]
    returns, or raises what [cd] raises, provided the pooling primitive gives
    for the [model_type] passed on by [cd_track_vgg] what it gives without
    one (as [cd] calls it). *)
Theorem cd_track_vgg_agrees_with_cd (h : heap) (model_type : option string)
    (device : string) :
  has_layout vgg16_layout (h_model h) ->
  (forall r i o, propagate_pooling r i o model_type = propagate_pooling r i o None) ->
  final_pair (cd_track_vgg h model_type).1 = (cd h None device).1.
Proof.
  intros Hlay Hpool. unfold has_layout, vgg16_layout in Hlay.
  destruct h as [model mask im]. cbn [h_model] in Hlay.
  repeat match goal with
         | H : Forall2 _ (_ :: _) _ |- _ =>
           apply Forall2_cons_inv_l in H as (? & ? & ? & H & ->)
         | H : Forall2 _ [] _ |- _ => apply Forall2_nil_inv_l in H as ->
         end.
  unfold cd, cd_track_vgg. cbn [fst h_model h_mask h_im].
  destruct (decide (None = Some "mnist"%string)) as [|_]; [done|].
  cbn [model_eval fmap list_fmap drop].
  repeat match goal with
         | H : dispatch (type_str ?x) = ?K |- _ =>
           change (dispatch (type_str (set_training false x)) = K) in H;
           generalize dependent (set_training false x); clear x; intros x H
         end.
  unfold conv_append, conv_only, relu_at, pool_at, dropout_at.
  cbn [py_index lookup list_lookup].
  repeat
    (cbn [mbind result_bind cd_loop fst snd];
     try rewrite cd_step_dispatch;
     try match goal with
         | H : dispatch (type_str ?y) = _ |- context [dispatch (type_str ?y)] =>
           rewrite H; clear H
         end;
     rewrite ?Hpool;
     try match goal with
         | |- context [propagate_conv_linear ?a ?b ?o] =>
           destruct (propagate_conv_linear a b o) as [?|?]; [|reflexivity]
         | |- context [propagate_relu ?a ?b ?o] =>
           destruct (propagate_relu a b o) as [?|?]; [|reflexivity]
         | |- context [propagate_pooling ?a ?b ?o None] =>
           destruct (propagate_pooling a b o None) as [?|?]; [|reflexivity]
         | |- context [propagate_dropout ?a ?b ?o] =>
           destruct (propagate_dropout a b o) as [?|?]; [|reflexivity]
         end).
  by match goal with |- final_pair (Ok (?a.1, _, _)) = _ => destruct a end.
Qed.

(** *** Networks of linear layers *)





End Propagators.

(** ** The sequence propagator: [cd_text] *)

Section TextPropagator.
Context {F : Type} {SF : Scalar F}.
Add Ring Fring_text : F_ring.

Local Abbreviation vec := (list F).
Local Abbreviation matrix := (list (list F)).

(** [scipy.special.expit] and [np.tanh] on one entry. *)
Variable sigmoid : F -> F.
Variable tanh : F -> F.

(** The two primitives [cd_text] takes from [cd_propagate]. *)
Variable propagate_three : vec -> vec -> vec -> (F -> F) -> vec * vec * vec.
Variable propagate_tanh_two : vec -> vec -> vec * vec.

(** What [cd_text] reads of [model]: the state dict of [model.lstm], the
    embedding lookup [model.embed], [model.hidden_dim] and the readout layer
    [model.hidden_to_label]. *)
Record TextModel := {
  weight_ih_l0 : matrix;
  weight_hh_l0 : matrix;
  bias_ih_l0 : vec;
  bias_hh_l0 : vec;
  embed : nat -> vec;
  hidden_dim : nat;
  hidden_to_label_weight : matrix;
  hidden_to_label_bias : vec
}.

(** The [j]-th of four equal sections of an array. *)
Definition section4 {A} (j : nat) (l : list A) : list A :=
  take (length l / 4) (drop (j * (length l / 4)) l).

(** [np.split(ary, 4, 0)]. *)
Definition np_split4 {A} (l : list A)
  : result (list A * list A * list A * list A) :=
  if length l mod 4 =? 0
  then Ok (section4 0 l, section4 1 l, section4 2 l, section4 3 l)
  else Raise ValueError.

(** [x[:, 0]] for a two-dimensional [x]. *)
Fixpoint column0 {A} (x : list (list A)) : result (list A) :=
  match x with
  | [] => Ok []
  | r :: rest => a ← py_index r 0; col ← column0 rest; Ok (a :: col)
  end.

(** [model.embed(batch.text)]: one vector per token of the batch;
    [batch.text] has one row per timestep and one column per sequence. *)
Definition embed_batch (model : TextModel) (text : list (list nat))
  : list (list vec) :=
  (fun r : list nat => embed model <$> r) <$> text.

(** The weights after the three [np.split] calls. *)
Record gates := {
  W_ii : matrix; W_if : matrix; W_ig : matrix; W_io : matrix;
  W_hi : matrix; W_hf : matrix; W_hg : matrix; W_ho : matrix;
  b_i : vec; b_f : vec; b_g : vec; b_o : vec
}.

(** The four arrays of shape [(T, hidden_dim)] the loop fills. *)
Record cd_state := {
  relevant : list vec;
  irrelevant : list vec;
  relevant_h : list vec;
  irrelevant_h : list vec
}.

(** [i >= start and i <= stop]. *)
Definition in_range (start stop : Z) (i : nat) : bool :=
  (start <=? Z.of_nat i)%Z && (Z.of_nat i <=? stop)%Z.

(** The eight pre-activations of lines 100-118. *)
Record preacts := {
  rel_i : vec; rel_g : vec; rel_f : vec; rel_o : vec;
  irrel_i : vec; irrel_g : vec; irrel_f : vec; irrel_o : vec
}.

Definition gate_preacts (g : gates) (start stop : Z) (i : nat)
    (word_vec prev_rel_h prev_irrel_h : vec) : preacts :=
  let rel_i := np_dot (W_hi g) prev_rel_h in
  let rel_g := np_dot (W_hg g) prev_rel_h in
  let rel_f := np_dot (W_hf g) prev_rel_h in
  let rel_o := np_dot (W_ho g) prev_rel_h in
  let irrel_i := np_dot (W_hi g) prev_irrel_h in
  let irrel_g := np_dot (W_hg g) prev_irrel_h in
  let irrel_f := np_dot (W_hf g) prev_irrel_h in
  let irrel_o := np_dot (W_ho g) prev_irrel_h in
  if in_range start stop i then
    {| rel_i := vadd rel_i (np_dot (W_ii g) word_vec);
       rel_g := vadd rel_g (np_dot (W_ig g) word_vec);
       rel_f := vadd rel_f (np_dot (W_if g) word_vec);
       rel_o := vadd rel_o (np_dot (W_io g) word_vec);
       irrel_i := irrel_i; irrel_g := irrel_g;
       irrel_f := irrel_f; irrel_o := irrel_o |}
  else
    {| rel_i := rel_i; rel_g := rel_g; rel_f := rel_f; rel_o := rel_o;
       irrel_i := vadd irrel_i (np_dot (W_ii g) word_vec);
       irrel_g := vadd irrel_g (np_dot (W_ig g) word_vec);
       irrel_f := vadd irrel_f (np_dot (W_if g) word_vec);
       irrel_o := vadd irrel_o (np_dot (W_io g) word_vec) |}.

(** The body of the loop (lines 93-143) at iteration [i]; [arr[k] = v] is
    [<[k:=v]> arr] and [arr[k]] is [row arr k]. *)
Definition cd_text_step (g : gates) (hidden : nat) (word_vecs : list vec)
    (start stop : Z) (st : cd_state) (i : nat) : cd_state :=
  let prev_rel_h := if 0 <? i then row (relevant_h st) (i - 1) else zeros hidden in
  let prev_irrel_h := if 0 <? i then row (irrelevant_h st) (i - 1) else zeros hidden in
  let pa := gate_preacts g start stop i (row word_vecs i) prev_rel_h prev_irrel_h in
  let '(rel_contrib_i, irrel_contrib_i, bias_contrib_i) :=
    propagate_three (rel_i pa) (irrel_i pa) (b_i g) sigmoid in
  let '(rel_contrib_g, irrel_contrib_g, bias_contrib_g) :=
    propagate_three (rel_g pa) (irrel_g pa) (b_g g) tanh in
  let relevant :=
    <[i := vadd (vmul rel_contrib_i (vadd rel_contrib_g bias_contrib_g))
                (vmul bias_contrib_i rel_contrib_g)]> (relevant st) in
  let irrelevant :=
    <[i := vadd (vmul irrel_contrib_i
                      (vadd (vadd rel_contrib_g irrel_contrib_g) bias_contrib_g))
                (vmul (vadd rel_contrib_i bias_contrib_i) irrel_contrib_g)]>
      (irrelevant st) in
  let relevant :=
    if in_range start stop i
    then <[i := vadd (row relevant i) (vmul bias_contrib_i bias_contrib_g)]> relevant
    else relevant in
  let irrelevant :=
    if in_range start stop i
    then irrelevant
    else <[i := vadd (row irrelevant i) (vmul bias_contrib_i bias_contrib_g)]> irrelevant in
  let '(relevant, irrelevant) :=
    if 0 <? i then
      let '(rel_contrib_f, irrel_contrib_f, bias_contrib_f) :=
        propagate_three (rel_f pa) (irrel_f pa) (b_f g) sigmoid in
      let relevant :=
        <[i := vadd (row relevant i)
                    (vmul (vadd rel_contrib_f bias_contrib_f) (row relevant (i - 1)))]>
          relevant in
      let irrelevant :=
        <[i := vadd (row irrelevant i)
                    (vadd (vmul (vadd (vadd rel_contrib_f irrel_contrib_f) bias_contrib_f)
                                (row irrelevant (i - 1)))
                          (vmul irrel_contrib_f (row relevant (i - 1))))]>
          irrelevant in
      (relevant, irrelevant)
    else (relevant, irrelevant) in
  let o := sigmoid <$> vadd (vadd (np_dot (W_io g) (row word_vecs i))
                                  (np_dot (W_ho g) (vadd prev_rel_h prev_irrel_h)))
                            (b_o g) in
  let '(rel_contrib_o, irrel_contrib_o, bias_contrib_o) :=
    propagate_three (rel_o pa) (irrel_o pa) (b_o g) sigmoid in
  let '(new_rel_h, new_irrel_h) :=
    propagate_tanh_two (row relevant i) (row irrelevant i) in
  {| relevant := relevant;
     irrelevant := irrelevant;
     relevant_h := <[i := vmul o new_rel_h]> (relevant_h st);
     irrelevant_h := <[i := vmul o new_irrel_h]> (irrelevant_h st) |}.

(** The four [np.zeros((T, model.hidden_dim))]. *)
Definition cd_text_init (T hidden : nat) : cd_state :=
  {| relevant := replicate T (zeros hidden);
     irrelevant := replicate T (zeros hidden);
     relevant_h := replicate T (zeros hidden);
     irrelevant_h := replicate T (zeros hidden) |}.

(** The arrays after [for i in range(T)]. *)
Definition cd_text_loop (g : gates) (hidden : nat) (word_vecs : list vec)
    (start stop : Z) : cd_state :=
  foldl (cd_text_step g hidden word_vecs start stop)
        (cd_text_init (length word_vecs) hidden)
        (seq 0 (length word_vecs)).

(** What [cd_text] returns: [scores], or [(scores, irrel_scores)]. *)
Inductive cd_text_result :=
| Scores (scores : vec)
| ScoresIrrel (scores irrel_scores : vec).

(** [a + b] on two one-dimensional arrays: entry by entry when they have one
    length; an array of a single entry is broadcast along the other one; two
    other lengths raise [ValueError]. *)
Definition np_add (a b : vec) : result vec :=
  if length a =? length b then Ok (vadd a b)
  else if length a =? 1 then Ok (Fadd (vnth a 0) <$> b)
  else if length b =? 1 then Ok ((fun x => Fadd x (vnth b 0)) <$> a)
  else Raise ValueError.

(** Lines 80-86: the weights by gate and the word vectors of the first
    sequence of the batch. *)
Definition cd_text_setup (text : list (list nat)) (model : TextModel)
  : result (gates * list vec) :=
  '(W_ii, W_if, W_ig, W_io) ← np_split4 (weight_ih_l0 model);
  '(W_hi, W_hf, W_hg, W_ho) ← np_split4 (weight_hh_l0 model);
  b ← np_add (bias_ih_l0 model) (bias_hh_l0 model);
  '(b_i, b_f, b_g, b_o) ← np_split4 b;
  word_vecs ← column0 (embed_batch model text);
  Ok ({| W_ii := W_ii; W_if := W_if; W_ig := W_ig; W_io := W_io;
         W_hi := W_hi; W_hf := W_hf; W_hg := W_hg; W_ho := W_ho;
         b_i := b_i; b_f := b_f; b_g := b_g; b_o := b_o |}, word_vecs).

(** [cd_text(batch, model, start, stop, return_irrel_scores)], with
    [text = batch.text]. *)
Definition cd_text (text : list (list nat)) (model : TextModel)
    (start stop : Z) (return_irrel_scores : bool) : result cd_text_result :=
  '(g, word_vecs) ← cd_text_setup text model;
  let T := length word_vecs in
  let st := cd_text_loop g (hidden_dim model) word_vecs start stop in
  let W_out := hidden_to_label_weight model in
  last_rel_h ← py_index (relevant_h st) (T - 1);
  let scores := np_dot W_out last_rel_h in
  last_irrel_h ← py_index (irrelevant_h st) (T - 1);
  let irrel_scores := np_dot W_out last_irrel_h in
  if return_irrel_scores then Ok (ScoresIrrel scores irrel_scores)
  else Ok (Scores scores).

(** *** The classifier itself *)

(** Modelled from the spec: the "standard forward pass" of the classifier
    [cd_text] explains, whose code (the model class, over [torch.nn.LSTM]) is
    missing: a single-layer LSTM started from zero hidden and cell states,
    with the gates stacked in the order input, forget, candidate, output, and
    the readout [hidden_to_label] applied to the last hidden state. *)
Definition lstm_pre (model : TextModel) (x h : vec) : vec :=
  vadd (vadd (np_dot (weight_ih_l0 model) x) (bias_ih_l0 model))
       (vadd (np_dot (weight_hh_l0 model) h) (bias_hh_l0 model)).

Definition lstm_cell (model : TextModel) (hc : vec * vec) (x : vec) : vec * vec :=
  let '(h, c) := hc in
  let pre := lstm_pre model x h in
  let i := sigmoid <$> section4 0 pre in
  let f := sigmoid <$> section4 1 pre in
  let g := tanh <$> section4 2 pre in
  let o := sigmoid <$> section4 3 pre in
  let c' := vadd (vmul f c) (vmul i g) in
  (vmul o (tanh <$> c'), c').

Definition lstm_forward (model : TextModel) (word_vecs : list vec) : vec * vec :=
  foldl (lstm_cell model)
        (zeros (hidden_dim model), zeros (hidden_dim model)) word_vecs.

(** The logits of the first sequence of the batch. *)
Definition model_forward (model : TextModel) (text : list (list nat)) : result vec :=
  word_vecs ← column0 (embed_batch model text);
  match word_vecs with
  | [] => Raise IndexError
  | _ => Ok (vadd (np_dot (hidden_to_label_weight model)
                          (lstm_forward model word_vecs).1)
                  (hidden_to_label_bias model))
  end.

(** The shapes of a one-layer LSTM with [hidden_dim] units, of its readout
    and of the word vectors: the calls on which no array operation of
    [cd_text] meets operands of mismatched shapes. *)
Definition well_shaped (model : TextModel) : Prop :=
  length (weight_ih_l0 model) = 4 * hidden_dim model /\
  length (weight_hh_l0 model) = 4 * hidden_dim model /\
  length (bias_ih_l0 model) = 4 * hidden_dim model /\
  length (bias_hh_l0 model) = 4 * hidden_dim model /\
  length (hidden_to_label_bias model) = length (hidden_to_label_weight model) /\
  Forall (fun r => length r = hidden_dim model) (weight_hh_l0 model) /\
  Forall (fun r => length r = hidden_dim model) (hidden_to_label_weight model) /\
  exists input_dim,
    Forall (fun r => length r = input_dim) (weight_ih_l0 model) /\
    forall tok, length (embed model tok) = input_dim.

(** Modelled from the spec: what [propagate_three] of the missing
    [cd_propagate] guarantees.  It "splits nonlinearity(rel+irrel+bias) into
    independent relevant-only, irrelevant-only, and bias-only contributions":
    three arrays of the shape of its arguments that add up to the
    nonlinearity of the sum. *)
Definition splits_three : Prop :=
  forall (a b c : vec) (act : F -> F),
    length a = length b -> length b = length c ->
    let out := propagate_three a b c act in
    length out.1.1 = length a /\ length out.1.2 = length a /\
    length out.2 = length a /\
    vadd (vadd out.1.1 out.1.2) out.2 = act <$> vadd (vadd a b) c.

(** Modelled from the spec: what [propagate_tanh_two] of the missing
    [cd_propagate] guarantees: it "splits tanh(a+b) into two contributions". *)
Definition splits_two : Prop :=
  forall (a b : vec),
    length a = length b ->
    let out := propagate_tanh_two a b in
    length out.1 = length a /\ length out.2 = length a /\
    vadd out.1 out.2 = tanh <$> vadd a b.

(** *** The loop, row by row

    Iteration [i] reads row [i - 1] of the four arrays and writes row [i].
    [cd_text_rows] is the row it writes as a function of the row it reads. *)

Record rows := {
  r_relevant : vec;
  r_irrelevant : vec;
  r_relevant_h : vec;
  r_irrelevant_h : vec
}.

Definition rows_at (st : cd_state) (k : nat) : rows :=
  {| r_relevant := row (relevant st) k;
     r_irrelevant := row (irrelevant st) k;
     r_relevant_h := row (relevant_h st) k;
     r_irrelevant_h := row (irrelevant_h st) k |}.

Definition write_rows (i : nat) (r : rows) (st : cd_state) : cd_state :=
  {| relevant := <[i := r_relevant r]> (relevant st);
     irrelevant := <[i := r_irrelevant r]> (irrelevant st);
     relevant_h := <[i := r_relevant_h r]> (relevant_h st);
     irrelevant_h := <[i := r_irrelevant_h r]> (irrelevant_h st) |}.

(** [v] if [c] holds, else [v + w]: an in-place [+=] that is skipped. *)
Definition add_unless (c : bool) (v w : vec) : vec := if c then v else vadd v w.

Definition cd_text_rows (g : gates) (hidden : nat) (word_vecs : list vec)
    (start stop : Z) (i : nat) (prev : rows) : rows :=
  let prev_rel_h := if 0 <? i then r_relevant_h prev else zeros hidden in
  let prev_irrel_h := if 0 <? i then r_irrelevant_h prev else zeros hidden in
  let pa := gate_preacts g start stop i (row word_vecs i) prev_rel_h prev_irrel_h in
  let ci := propagate_three (rel_i pa) (irrel_i pa) (b_i g) sigmoid in
  let cg := propagate_three (rel_g pa) (irrel_g pa) (b_g g) tanh in
  let cf := propagate_three (rel_f pa) (irrel_f pa) (b_f g) sigmoid in
  let rel0 := vadd (vmul ci.1.1 (vadd cg.1.1 cg.2)) (vmul ci.2 cg.1.1) in
  let irrel0 := vadd (vmul ci.1.2 (vadd (vadd cg.1.1 cg.1.2) cg.2))
                     (vmul (vadd ci.1.1 ci.2) cg.1.2) in
  let rel1 := add_unless (negb (in_range start stop i)) rel0 (vmul ci.2 cg.2) in
  let irrel1 := add_unless (in_range start stop i) irrel0 (vmul ci.2 cg.2) in
  let rel2 := add_unless (negb (0 <? i)) rel1
                (vmul (vadd cf.1.1 cf.2) (r_relevant prev)) in
  let irrel2 := add_unless (negb (0 <? i)) irrel1
                  (vadd (vmul (vadd (vadd cf.1.1 cf.1.2) cf.2) (r_irrelevant prev))
                        (vmul cf.1.2 (r_relevant prev))) in
  let o := sigmoid <$> vadd (vadd (np_dot (W_io g) (row word_vecs i))
                                  (np_dot (W_ho g) (vadd prev_rel_h prev_irrel_h)))
                            (b_o g) in
  let new_h := propagate_tanh_two rel2 irrel2 in
  {| r_relevant := rel2;
     r_irrelevant := irrel2;
     r_relevant_h := vmul o new_h.1;
     r_irrelevant_h := vmul o new_h.2 |}.

(** Lines 120-143 alone: the row iteration [i] writes, as a function of the
    eight pre-activations [pa] that lines 100-118 have computed. *)
Definition cd_text_cell (g : gates) (hidden : nat) (word_vecs : list vec)
    (start stop : Z) (i : nat) (pa : preacts) (prev : rows) : rows :=
  let prev_rel_h := if 0 <? i then r_relevant_h prev else zeros hidden in
  let prev_irrel_h := if 0 <? i then r_irrelevant_h prev else zeros hidden in
  let ci := propagate_three (rel_i pa) (irrel_i pa) (b_i g) sigmoid in
  let cg := propagate_three (rel_g pa) (irrel_g pa) (b_g g) tanh in
  let cf := propagate_three (rel_f pa) (irrel_f pa) (b_f g) sigmoid in
  let rel0 := vadd (vmul ci.1.1 (vadd cg.1.1 cg.2)) (vmul ci.2 cg.1.1) in
  let irrel0 := vadd (vmul ci.1.2 (vadd (vadd cg.1.1 cg.1.2) cg.2))
                     (vmul (vadd ci.1.1 ci.2) cg.1.2) in
  let rel1 := add_unless (negb (in_range start stop i)) rel0 (vmul ci.2 cg.2) in
  let irrel1 := add_unless (in_range start stop i) irrel0 (vmul ci.2 cg.2) in
  let rel2 := add_unless (negb (0 <? i)) rel1
                (vmul (vadd cf.1.1 cf.2) (r_relevant prev)) in
  let irrel2 := add_unless (negb (0 <? i)) irrel1
                  (vadd (vmul (vadd (vadd cf.1.1 cf.1.2) cf.2) (r_irrelevant prev))
                        (vmul cf.1.2 (r_relevant prev))) in
  let o := sigmoid <$> vadd (vadd (np_dot (W_io g) (row word_vecs i))
                                  (np_dot (W_ho g) (vadd prev_rel_h prev_irrel_h)))
                            (b_o g) in
  let new_h := propagate_tanh_two rel2 irrel2 in
  {| r_relevant := rel2;
     r_irrelevant := irrel2;
     r_relevant_h := vmul o new_h.1;
     r_irrelevant_h := vmul o new_h.2 |}.

Lemma cd_text_rows_cell g hidden word_vecs start stop i prev :
  cd_text_rows g hidden word_vecs start stop i prev
  = cd_text_cell g hidden word_vecs start stop i
      (gate_preacts g start stop i (row word_vecs i)
         (if 0 <? i then r_relevant_h prev else zeros hidden)
         (if 0 <? i then r_irrelevant_h prev else zeros hidden))
      prev.
Proof. reflexivity. Qed.

Lemma row_insert_eq (l : list vec) i v : i < length l -> row (<[i:=v]> l) i = v.
Proof. intros H. apply nth_d_lookup. by apply list_lookup_insert_eq. Qed.

Lemma row_insert_ne (l : list vec) i j v : i <> j -> row (<[i:=v]> l) j = row l j.
Proof. intros H. unfold row, nth_d. by rewrite list_lookup_insert_ne. Qed.

Lemma cd_text_step_rows g hidden word_vecs start stop st i :
  i < length (relevant st) -> i < length (irrelevant st) ->
  cd_text_step g hidden word_vecs start stop st i
  = write_rows i (cd_text_rows g hidden word_vecs start stop i (rows_at st (i - 1))) st.
Proof.
  intros Hr Hi. unfold cd_text_step, cd_text_rows, write_rows, rows_at, add_unless.
  cbn [r_relevant r_irrelevant r_relevant_h r_irrelevant_h].
  set (pa := gate_preacts _ _ _ _ _ _ _).
  destruct (propagate_three (rel_i pa) (irrel_i pa) (b_i g) sigmoid) as [[rci ici] bci].
  destruct (propagate_three (rel_g pa) (irrel_g pa) (b_g g) tanh) as [[rcg icg] bcg].
  destruct (propagate_three (rel_f pa) (irrel_f pa) (b_f g) sigmoid) as [[rcf icf] bcf].
  destruct (propagate_three (rel_o pa) (irrel_o pa) (b_o g) sigmoid) as [[rco ico] bco].
  cbn [fst snd].
  destruct (in_range start stop i); destruct (0 <? i) eqn:Hpos; cbn [negb];
    try (apply Nat.ltb_lt in Hpos);
    repeat first
      [ rewrite row_insert_eq by (rewrite ?length_insert; lia)
      | rewrite row_insert_ne by lia
      | rewrite list_insert_insert_eq ];
    match goal with
    | |- context [propagate_tanh_two ?a ?b] =>
      destruct (propagate_tanh_two a b) as [new_rel_h new_irrel_h]
    end; reflexivity.
Qed.

(** The rows the loop writes, in order. *)
Fixpoint cd_text_trace (g : gates) (hidden : nat) (word_vecs : list vec)
    (start stop : Z) (k : nat) : rows :=
  match k with
  | 0 => cd_text_rows g hidden word_vecs start stop 0
           (rows_at (cd_text_init (length word_vecs) hidden) 0)
  | S k' => cd_text_rows g hidden word_vecs start stop (S k')
              (cd_text_trace g hidden word_vecs start stop k')
  end.

Lemma cd_text_rows_0 g hidden word_vecs start stop p q :
  cd_text_rows g hidden word_vecs start stop 0 p
  = cd_text_rows g hidden word_vecs start stop 0 q.
Proof. reflexivity. Qed.

Lemma rows_at_write_eq i r st :
  i < length (relevant st) -> i < length (irrelevant st) ->
  i < length (relevant_h st) -> i < length (irrelevant_h st) ->
  rows_at (write_rows i r st) i = r.
Proof.
  intros. unfold rows_at, write_rows. cbn.
  rewrite !row_insert_eq by done. by destruct r.
Qed.

Lemma rows_at_write_ne i k r st : i <> k -> rows_at (write_rows i r st) k = rows_at st k.
Proof. intros. unfold rows_at, write_rows. cbn. by rewrite !row_insert_ne. Qed.

Definition state_lengths (T : nat) (st : cd_state) : Prop :=
  length (relevant st) = T /\ length (irrelevant st) = T /\
  length (relevant_h st) = T /\ length (irrelevant_h st) = T.

Lemma cd_text_loop_prefix g hidden word_vecs start stop n :
  n <= length word_vecs ->
  let st := foldl (cd_text_step g hidden word_vecs start stop)
                  (cd_text_init (length word_vecs) hidden) (seq 0 n) in
  state_lengths (length word_vecs) st /\
  forall k, k < n -> rows_at st k = cd_text_trace g hidden word_vecs start stop k.
Proof.
  induction n as [|n IH]; intros Hn; cbn zeta.
  - split; [|intros k Hk; lia].
    unfold state_lengths, cd_text_init; cbn. by rewrite !length_replicate.
  - rewrite seq_S, foldl_snoc. cbn [plus].
    destruct (IH ltac:(lia)) as [(L1 & L2 & L3 & L4) Hrows]. clear IH.
    set (st := foldl _ _ (seq 0 n)) in *.
    rewrite cd_text_step_rows by lia. split.
    + unfold state_lengths, write_rows; cbn. by rewrite !length_insert.
    + intros k Hk. destruct (decide (k = n)) as [->|Hne].
      * rewrite rows_at_write_eq by lia.
        destruct n as [|n]; [reflexivity|].
        cbn [cd_text_trace]. replace (S n - 1) with n by lia.
        by rewrite Hrows by lia.
      * rewrite rows_at_write_ne by done. apply Hrows. lia.
Qed.

(** Every row of the final arrays is the row function applied to the row
    before it. *)
Lemma cd_text_loop_rows g hidden word_vecs start stop t :
  t < length word_vecs ->
  let st := cd_text_loop g hidden word_vecs start stop in
  rows_at st t = cd_text_rows g hidden word_vecs start stop t (rows_at st (t - 1)).
Proof.
  intros Ht st.
  destruct (cd_text_loop_prefix g hidden word_vecs start stop (length word_vecs)
              ltac:(lia)) as [_ Hrows].
  fold (cd_text_loop g hidden word_vecs start stop) in Hrows. fold st in Hrows.
  rewrite (Hrows t Ht). destruct t as [|t]; [reflexivity|].
  cbn [cd_text_trace]. replace (S t - 1) with t by lia.
  by rewrite Hrows by lia.
Qed.

Lemma cd_text_loop_lengths g hidden word_vecs start stop :
  state_lengths (length word_vecs) (cd_text_loop g hidden word_vecs start stop).
Proof.
  by destruct (cd_text_loop_prefix g hidden word_vecs start stop (length word_vecs)
                 ltac:(lia)) as [H _].
Qed.

(** *** Dependence on the range and on the batch *)

Lemma cd_text_step_range g hidden word_vecs start stop start' stop' st i :
  in_range start stop i = in_range start' stop' i ->
  cd_text_step g hidden word_vecs start stop st i
  = cd_text_step g hidden word_vecs start' stop' st i.
Proof. intros H. unfold cd_text_step, gate_preacts. by rewrite H. Qed.

Lemma foldl_ext_in {A B} (f f' : A -> B -> A) (l : list B) (a : A) :
  (forall a' x, x ∈ l -> f a' x = f' a' x) -> foldl f a l = foldl f' a l.
Proof.
  revert a. induction l as [|x l IH]; intros a H; [done|].
  cbn. rewrite (H a x) by left. apply IH. intros a' y Hy. apply H. by right.
Qed.

Lemma cd_text_loop_range g hidden word_vecs start stop start' stop' :
  (forall t, t < length word_vecs ->
             in_range start stop t = in_range start' stop' t) ->
  cd_text_loop g hidden word_vecs start stop
  = cd_text_loop g hidden word_vecs start' stop'.
Proof.
  intros H. unfold cd_text_loop. apply foldl_ext_in. intros st i Hi.
  apply cd_text_step_range, H. apply elem_of_seq in Hi. lia.
Qed.

Lemma column0_length {A} (x : list (list A)) col :
  column0 x = Ok col -> length col = length x.
Proof.
  revert col. induction x as [|r x IH]; intros col H; cbn in H.
  - by injection H as <-.
  - apply bind_Ok_inv in H as (a & _ & H).
    apply bind_Ok_inv in H as (c & Hc & H). injection H as <-.
    cbn. by rewrite (IH c Hc).
Qed.

Lemma column0_Ok {A} (x : list (list A)) :
  Forall (fun r => r <> []) x -> exists col, column0 x = Ok col.
Proof.
  induction 1 as [|r x Hr _ [col IH]]; [by exists []|].
  destruct r as [|a r]; [done|]. exists (a :: col). cbn. by rewrite IH.
Qed.

Lemma column0_ext {A} (x y : list (list A)) :
  Forall2 (fun r1 r2 => r1 !! 0 = r2 !! 0) x y -> column0 x = column0 y.
Proof.
  induction 1 as [|r1 r2 x y Hr _ IH]; [done|].
  cbn. unfold py_index. by rewrite Hr, IH.
Qed.

Lemma embed_batch_column0 model (x y : list (list nat)) :
  Forall2 (fun r1 r2 => r1 !! 0 = r2 !! 0) x y ->
  Forall2 (fun r1 r2 : list vec => r1 !! 0 = r2 !! 0)
          (embed_batch model x) (embed_batch model y).
Proof.
  intros H. unfold embed_batch. apply Forall2_fmap.
  eapply Forall2_impl; [exact H|]. intros r1 r2 Hr. cbn.
  by rewrite !list_lookup_fmap, Hr.
Qed.

Lemma embed_batch_nonempty model (x : list (list nat)) :
  Forall (fun r => r <> []) x ->
  Forall (fun r : list vec => r <> []) (embed_batch model x).
Proof.
  intros H. unfold embed_batch. apply Forall_fmap.
  eapply Forall_impl; [exact H|]. intros [|a r] Hr; [done|]. by cbn.
Qed.

Lemma np_split4_Ok {A} (l : list A) :
  length l mod 4 = 0 ->
  np_split4 l = Ok (section4 0 l, section4 1 l, section4 2 l, section4 3 l).
Proof. intros H. unfold np_split4. by rewrite H. Qed.

(** The shape of the state dict lines 83-85 rely on: the rows of the two
    weight matrices split in four, the two biases can be added, and their
    sum splits in four. *)
Definition splittable (model : TextModel) : Prop :=
  length (weight_ih_l0 model) mod 4 = 0 /\
  length (weight_hh_l0 model) mod 4 = 0 /\
  exists b, np_add (bias_ih_l0 model) (bias_hh_l0 model) = Ok b /\
            length b mod 4 = 0.

(** The summed bias of line 85, where the sum is defined. *)
Definition bias_sum (model : TextModel) : vec :=
  match np_add (bias_ih_l0 model) (bias_hh_l0 model) with
  | Ok b => b
  | Raise _ => []
  end.

Lemma np_add_same (a b : vec) :
  length a = length b -> np_add a b = Ok (vadd a b).
Proof. intros H. unfold np_add. by rewrite H, Nat.eqb_refl. Qed.

Lemma np_add_raises (a b : vec) e : np_add a b = Raise e -> e = ValueError.
Proof.
  unfold np_add. repeat case_match; try discriminate. by intros [= <-].
Qed.

(** The weights by gate, as [cd_text_setup] computes them. *)
Definition gates_of (model : TextModel) : gates :=
  let wi := weight_ih_l0 model in
  let wh := weight_hh_l0 model in
  let b := bias_sum model in
  {| W_ii := section4 0 wi; W_if := section4 1 wi;
     W_ig := section4 2 wi; W_io := section4 3 wi;
     W_hi := section4 0 wh; W_hf := section4 1 wh;
     W_hg := section4 2 wh; W_ho := section4 3 wh;
     b_i := section4 0 b; b_f := section4 1 b;
     b_g := section4 2 b; b_o := section4 3 b |}.

Lemma cd_text_setup_Ok text model :
  splittable model -> Forall (fun r => r <> []) text ->
  exists word_vecs,
    column0 (embed_batch model text) = Ok word_vecs /\
    length word_vecs = length text /\
    cd_text_setup text model = Ok (gates_of model, word_vecs).
Proof.
  intros (H1 & H2 & b & Hb & H3) Ht.
  destruct (column0_Ok _ (embed_batch_nonempty model text Ht)) as [wv Hwv].
  exists wv. split; [done|]. split.
  - rewrite (column0_length _ _ Hwv). unfold embed_batch. by rewrite length_fmap.
  - unfold cd_text_setup, gates_of, bias_sum.
    rewrite (np_split4_Ok _ H1), (np_split4_Ok _ H2), Hb.
    cbn [mbind result_bind]. rewrite (np_split4_Ok _ H3).
    cbn. by rewrite Hwv.
Qed.

Lemma py_index_row (l : list vec) k : k < length l -> py_index l k = Ok (row l k).
Proof. intros H. unfold py_index. by rewrite (lookup_nth_d [] l k H). Qed.

(** [cd_text] on a well-formed call, unfolded. *)
Lemma cd_text_unfold text model start stop flag word_vecs :
  splittable model -> Forall (fun r => r <> []) text -> text <> [] ->
  column0 (embed_batch model text) = Ok word_vecs ->
  let st := cd_text_loop (gates_of model) (hidden_dim model) word_vecs start stop in
  let T := length word_vecs in
  let scores := np_dot (hidden_to_label_weight model) (row (relevant_h st) (T - 1)) in
  let irrel := np_dot (hidden_to_label_weight model) (row (irrelevant_h st) (T - 1)) in
  cd_text text model start stop flag
  = Ok (if flag then ScoresIrrel scores irrel else Scores scores).
Proof.
  intros Hs Ht Hne Hwv. cbn zeta.
  destruct (cd_text_setup_Ok text model Hs Ht) as (wv & Hwv' & Hlen & Hsetup).
  rewrite Hwv in Hwv'. injection Hwv' as <-.
  unfold cd_text. rewrite Hsetup. cbn.
  destruct (cd_text_loop_lengths (gates_of model) (hidden_dim model) word_vecs
              start stop) as (_ & _ & L3 & L4).
  assert (0 < length word_vecs) by (rewrite Hlen; destruct text; [done|cbn; lia]).
  rewrite !py_index_row by lia. cbn. by destruct flag.
Qed.

(** *** The decomposition adds up to the forward pass *)

Lemma vadd_zeros n : vadd (zeros n) (zeros n) = zeros n.
Proof. vec_pointwise. ring. Qed.

Lemma length_section4 {A} (j n : nat) (l : list A) :
  length l = 4 * n -> j < 4 -> length (section4 j l) = n.
Proof.
  intros Hl Hj. unfold section4.
  replace (length l / 4) with n by (rewrite Hl, Nat.mul_comm, Nat.div_mul; lia).
  rewrite length_take, length_drop. nia.
Qed.

Lemma section4_zip_with (f : F -> F -> F) j (u v : vec) :
  length u = length v ->
  section4 j (zip_with f u v) = zip_with f (section4 j u) (section4 j v).
Proof.
  intros Hl. unfold section4.
  rewrite length_zip_with, <- Hl, Nat.min_id.
  by rewrite zip_with_drop, zip_with_take.
Qed.

Lemma section4_np_dot j W x : section4 j (np_dot W x) = np_dot (section4 j W) x.
Proof.
  unfold section4, np_dot. by rewrite length_fmap, fmap_take, fmap_drop.
Qed.

(** The stacked pre-activation of the forward pass, gate by gate. *)
Lemma section4_pre model j x h :
  well_shaped model -> j < 4 ->
  section4 j (lstm_pre model x h)
  = vadd (vadd (np_dot (section4 j (weight_ih_l0 model)) x)
               (section4 j (bias_ih_l0 model)))
         (vadd (np_dot (section4 j (weight_hh_l0 model)) h)
               (section4 j (bias_hh_l0 model))).
Proof.
  intros (L1 & L2 & L3 & L4 & _) Hj. unfold lstm_pre, vadd.
  rewrite section4_zip_with by (rewrite !length_zip_with, !length_np_dot; lia).
  rewrite !section4_zip_with by (rewrite ?length_np_dot; lia).
  by rewrite !section4_np_dot.
Qed.

Lemma bias_sum_well_shaped model :
  well_shaped model ->
  bias_sum model = vadd (bias_ih_l0 model) (bias_hh_l0 model).
Proof.
  intros (_ & _ & L3 & L4 & _). unfold bias_sum.
  by rewrite np_add_same by lia.
Qed.

Lemma section4_bias model j :
  well_shaped model ->
  section4 j (vadd (bias_ih_l0 model) (bias_hh_l0 model))
  = vadd (section4 j (bias_ih_l0 model)) (section4 j (bias_hh_l0 model)).
Proof.
  intros (_ & _ & L3 & L4 & _). unfold vadd. apply section4_zip_with. lia.
Qed.

Section GateAlgebra.
Variable n : nat.
Variables A B1 B2 bi bh : vec.
Hypothesis HA : length A = n.
Hypothesis HB1 : length B1 = n.
Hypothesis HB2 : length B2 = n.
Hypothesis Hbi : length bi = n.
Hypothesis Hbh : length bh = n.

Lemma gate_sum_in :
  vadd (vadd (vadd B1 A) B2) (vadd bi bh) = vadd (vadd A bi) (vadd (vadd B1 B2) bh).
Proof. vec_pointwise. ring. Qed.

Lemma gate_sum_out :
  vadd (vadd B1 (vadd B2 A)) (vadd bi bh) = vadd (vadd A bi) (vadd (vadd B1 B2) bh).
Proof. vec_pointwise. ring. Qed.

Lemma gate_sum_whole :
  vadd (vadd A (vadd B1 B2)) (vadd bi bh) = vadd (vadd A bi) (vadd (vadd B1 B2) bh).
Proof. vec_pointwise. ring. Qed.
End GateAlgebra.

(** The two cell-state rows of one iteration add up to the cell update of
    the forward pass. *)
Lemma cell_sum n (rci ici bci rcg icg bcg rcf icf bcf cr ci : vec)
    (in_rng pos : bool) :
  length rci = n -> length ici = n -> length bci = n ->
  length rcg = n -> length icg = n -> length bcg = n ->
  length rcf = n -> length icf = n -> length bcf = n ->
  (pos = true -> length cr = n /\ length ci = n) ->
  let base_rel := vadd (vmul rci (vadd rcg bcg)) (vmul bci rcg) in
  let base_irrel :=
    vadd (vmul ici (vadd (vadd rcg icg) bcg)) (vmul (vadd rci bci) icg) in
  let cross := vmul bci bcg in
  let forget_rel := vmul (vadd rcf bcf) cr in
  let forget_irrel := vadd (vmul (vadd (vadd rcf icf) bcf) ci) (vmul icf cr) in
  let rel := add_unless (negb pos) (add_unless (negb in_rng) base_rel cross) forget_rel in
  let irrel := add_unless (negb pos) (add_unless in_rng base_irrel cross) forget_irrel in
  length rel = n /\ length irrel = n /\
  vadd rel irrel
  = vadd (vmul (vadd (vadd rcf icf) bcf) (if pos then vadd cr ci else zeros n))
         (vmul (vadd (vadd rci ici) bci) (vadd (vadd rcg icg) bcg)).
Proof.
  intros L1 L2 L3 L4 L5 L6 L7 L8 L9 Hpos. cbn zeta. unfold add_unless.
  destruct pos; [destruct (Hpos eq_refl) as [L10 L11]|]; clear Hpos;
    destruct in_rng; cbn [negb];
    (split; [veclen | split; [veclen | vec_pointwise; ring]]).
Qed.

Lemma vmul_vadd_r (o a b : vec) :
  length a = length b -> vadd (vmul o a) (vmul o b) = vmul o (vadd a b).
Proof. intros H. vec_pointwise. ring. Qed.

Definition rows_lengths (n : nat) (r : rows) : Prop :=
  length (r_relevant r) = n /\ length (r_irrelevant r) = n /\
  length (r_relevant_h r) = n /\ length (r_irrelevant_h r) = n.

Lemma gate_preacts_if g start stop i x prh pih :
  gate_preacts g start stop i x prh pih
  = let c := in_range start stop i in
    let put (on : bool) (v w : vec) := if on then vadd v w else v in
    {| rel_i := put c (np_dot (W_hi g) prh) (np_dot (W_ii g) x);
       rel_g := put c (np_dot (W_hg g) prh) (np_dot (W_ig g) x);
       rel_f := put c (np_dot (W_hf g) prh) (np_dot (W_if g) x);
       rel_o := put c (np_dot (W_ho g) prh) (np_dot (W_io g) x);
       irrel_i := put (negb c) (np_dot (W_hi g) pih) (np_dot (W_ii g) x);
       irrel_g := put (negb c) (np_dot (W_hg g) pih) (np_dot (W_ig g) x);
       irrel_f := put (negb c) (np_dot (W_hf g) pih) (np_dot (W_if g) x);
       irrel_o := put (negb c) (np_dot (W_ho g) pih) (np_dot (W_io g) x) |}.
Proof. unfold gate_preacts. by destruct (in_range start stop i). Qed.

Section Sum.
Hypothesis propagate_three_splits : splits_three.
Hypothesis propagate_tanh_two_splits : splits_two.

(** One gate: the three contributions add up to the gate of the forward
    pass. *)
Lemma gate_contribs_sum (act : F -> F) model j x prh pih (c : bool) :
  well_shaped model -> j < 4 ->
  length prh = hidden_dim model -> length pih = hidden_dim model ->
  let Wi := section4 j (weight_ih_l0 model) in
  let Wh := section4 j (weight_hh_l0 model) in
  let b := section4 j (vadd (bias_ih_l0 model) (bias_hh_l0 model)) in
  let rel := if c then vadd (np_dot Wh prh) (np_dot Wi x) else np_dot Wh prh in
  let irrel := if negb c then vadd (np_dot Wh pih) (np_dot Wi x) else np_dot Wh pih in
  let out := propagate_three rel irrel b act in
  length out.1.1 = hidden_dim model /\ length out.1.2 = hidden_dim model /\
  length out.2 = hidden_dim model /\
  vadd (vadd out.1.1 out.1.2) out.2
  = act <$> section4 j (lstm_pre model x (vadd prh pih)).
Proof.
  intros Hw Hj Lr Li. cbn zeta.
  pose proof Hw as (L1 & L2 & L3 & L4 & _).
  set (Wi := section4 j (weight_ih_l0 model)).
  set (Wh := section4 j (weight_hh_l0 model)).
  assert (LWi : length Wi = hidden_dim model) by by apply length_section4.
  assert (LWh : length Wh = hidden_dim model) by by apply length_section4.
  assert (Lbi : length (section4 j (bias_ih_l0 model)) = hidden_dim model)
    by by apply length_section4.
  assert (Lbh : length (section4 j (bias_hh_l0 model)) = hidden_dim model)
    by by apply length_section4.
  rewrite section4_bias by done.
  set (rel := if c then _ else _). set (irrel := if negb c then _ else _).
  assert (Lrel : length rel = hidden_dim model) by (subst rel; destruct c; veclen).
  assert (Lirrel : length irrel = hidden_dim model)
    by (subst irrel; destruct c; cbn [negb]; veclen).
  destruct (propagate_three_splits rel irrel
              (vadd (section4 j (bias_ih_l0 model)) (section4 j (bias_hh_l0 model)))
              act) as (Lo1 & Lo2 & Lo3 & Hsum).
  { lia. } { veclen. }
  rewrite Lrel in Lo1, Lo2, Lo3.
  do 3 (split; [done|]). rewrite Hsum. f_equal.
  rewrite section4_pre by done. fold Wi Wh.
  rewrite np_dot_add_r by lia.
  subst rel irrel. destruct c; cbn [negb].
  - by apply (gate_sum_in (hidden_dim model)); veclen.
  - by apply (gate_sum_out (hidden_dim model)); veclen.
Qed.

(** The output gate of [cd_text] is the output gate of the forward pass. *)
Lemma output_gate_whole model x prh pih :
  well_shaped model ->
  length prh = hidden_dim model -> length pih = hidden_dim model ->
  vadd (vadd (np_dot (section4 3 (weight_ih_l0 model)) x)
             (np_dot (section4 3 (weight_hh_l0 model)) (vadd prh pih)))
       (section4 3 (vadd (bias_ih_l0 model) (bias_hh_l0 model)))
  = section4 3 (lstm_pre model x (vadd prh pih)).
Proof.
  intros Hw Lr Li. pose proof Hw as (L1 & L2 & L3 & L4 & _).
  rewrite section4_bias, section4_pre by (done || lia).
  rewrite np_dot_add_r by lia.
  apply (gate_sum_whole (hidden_dim model)); veclen;
    apply length_section4; (done || lia).
Qed.

(** One iteration: the rows written add up to one step of the forward pass
    on the sums of the rows read. *)
Lemma cd_text_rows_sum model word_vecs start stop i prev :
  well_shaped model ->
  (0 < i -> rows_lengths (hidden_dim model) prev) ->
  let new := cd_text_rows (gates_of model) (hidden_dim model) word_vecs
               start stop i prev in
  let h := if 0 <? i then vadd (r_relevant_h prev) (r_irrelevant_h prev)
           else zeros (hidden_dim model) in
  let c := if 0 <? i then vadd (r_relevant prev) (r_irrelevant prev)
           else zeros (hidden_dim model) in
  rows_lengths (hidden_dim model) new /\
  (vadd (r_relevant_h new) (r_irrelevant_h new),
   vadd (r_relevant new) (r_irrelevant new))
  = lstm_cell model (h, c) (row word_vecs i).
Proof.
  intros Hw Hprev. cbn zeta.
  set (n := hidden_dim model) in *.
  set (x := row word_vecs i).
  set (prh := if 0 <? i then r_relevant_h prev else zeros n).
  set (pih := if 0 <? i then r_irrelevant_h prev else zeros n).
  assert (Lprh : length prh = n /\ length pih = n).
  { subst prh pih. destruct (0 <? i) eqn:Hpos.
    - apply Nat.ltb_lt in Hpos. by destruct (Hprev Hpos) as (_ & _ & ? & ?).
    - by rewrite !length_zeros. }
  destruct Lprh as [Lprh Lpih].
  assert (Hh : (if 0 <? i then vadd (r_relevant_h prev) (r_irrelevant_h prev)
                else zeros n) = vadd prh pih).
  { subst prh pih. destruct (0 <? i); [done | by rewrite vadd_zeros]. }
  rewrite Hh. clear Hh.
  unfold cd_text_rows. fold n x prh pih.
  rewrite gate_preacts_if. cbn zeta.
  cbn [rel_i rel_g rel_f rel_o irrel_i irrel_g irrel_f irrel_o
       r_relevant r_irrelevant r_relevant_h r_irrelevant_h
       gates_of W_ii W_if W_ig W_io W_hi W_hf W_hg W_ho b_i b_f b_g b_o].
  rewrite !(bias_sum_well_shaped model Hw).
  destruct (gate_contribs_sum sigmoid model 0 x prh pih (in_range start stop i))
    as (Li1 & Li2 & Li3 & Hi); [done | lia | done | done |].
  destruct (gate_contribs_sum tanh model 2 x prh pih (in_range start stop i))
    as (Lg1 & Lg2 & Lg3 & Hg); [done | lia | done | done |].
  destruct (gate_contribs_sum sigmoid model 1 x prh pih (in_range start stop i))
    as (Lf1 & Lf2 & Lf3 & Hf); [done | lia | done | done |].
  fold n in Li1, Li2, Li3, Lg1, Lg2, Lg3, Lf1, Lf2, Lf3.
  set (ci := propagate_three _ _ _ sigmoid) in Li1, Li2, Li3, Hi |- *.
  set (cg := propagate_three _ _ _ tanh) in Lg1, Lg2, Lg3, Hg |- *.
  set (cf := propagate_three _ _ _ sigmoid) in Lf1, Lf2, Lf3, Hf |- *.
  destruct (cell_sum n ci.1.1 ci.1.2 ci.2 cg.1.1 cg.1.2 cg.2 cf.1.1 cf.1.2 cf.2
              (r_relevant prev) (r_irrelevant prev)
              (in_range start stop i) (0 <? i))
    as (Lrel & Lirrel & Hc); try done.
  { intros Hpos. apply Nat.ltb_lt in Hpos.
    by destruct (Hprev Hpos) as (? & ? & _ & _). }
  set (rel2 := add_unless (negb (0 <? i)) _ _) in Lrel, Hc |- *.
  set (irrel2 := add_unless (negb (0 <? i)) _ _) in Lirrel, Hc |- *.
  destruct (propagate_tanh_two_splits rel2 irrel2) as (Lh1 & Lh2 & Hnew); [lia|].
  rewrite Lrel in Lh1, Lh2.
  set (o := sigmoid <$> vadd (vadd (np_dot _ x) _) _).
  assert (Lo : length o = n).
  { subst o. rewrite length_fmap, output_gate_whole by done.
    apply length_section4; [|lia].
    destruct Hw as (L1 & L2 & L3 & L4 & _). unfold lstm_pre. veclen. }
  split.
  - unfold rows_lengths.
    cbn [r_relevant r_irrelevant r_relevant_h r_irrelevant_h].
    repeat split; try done; veclen.
  - unfold lstm_cell. cbn zeta. rewrite <- Hi, <- Hg, <- Hf. fold n.
    rewrite vmul_vadd_r by lia. rewrite Hnew, Hc.
    subst o. by rewrite output_gate_whole by done.
Qed.

(** The rows of the loop add up to the states of the forward pass. *)
Lemma cd_text_trace_sum model word_vecs start stop k :
  well_shaped model ->
  k < length word_vecs ->
  let r := cd_text_trace (gates_of model) (hidden_dim model) word_vecs start stop k in
  rows_lengths (hidden_dim model) r /\
  (vadd (r_relevant_h r) (r_irrelevant_h r), vadd (r_relevant r) (r_irrelevant r))
  = lstm_forward model (take (S k) word_vecs).
Proof.
  intros Hw. induction k as [|k IH]; intros Hk; cbn zeta.
  - destruct (cd_text_rows_sum model word_vecs start stop 0
                (rows_at (cd_text_init (length word_vecs) (hidden_dim model)) 0) Hw)
      as [Hl Hs]; [lia|].
    split; [exact Hl|]. cbn [cd_text_trace]. rewrite Hs.
    unfold lstm_forward.
    rewrite (take_S_r word_vecs 0 (row word_vecs 0)) by by apply lookup_nth_d.
    by rewrite foldl_snoc.
  - destruct (IH ltac:(lia)) as [IHl IHs]. clear IH.
    destruct (cd_text_rows_sum model word_vecs start stop (S k)
                (cd_text_trace (gates_of model) (hidden_dim model) word_vecs
                   start stop k) Hw) as [Hl Hs]; [done|].
    split; [exact Hl|]. cbn [cd_text_trace]. rewrite Hs.
    cbn [Nat.ltb Nat.leb]. rewrite IHs.
    unfold lstm_forward.
    rewrite (take_S_r word_vecs (S k) (row word_vecs (S k))) by by apply lookup_nth_d.
    by rewrite foldl_snoc.
Qed.

(** At the end of the loop the last rows of [relevant_h] and [irrelevant_h]
    add up to the last hidden state of the forward pass. *)
Lemma cd_text_loop_sum model word_vecs start stop :
  well_shaped model -> word_vecs <> [] ->
  let st := cd_text_loop (gates_of model) (hidden_dim model) word_vecs start stop in
  let T := length word_vecs in
  length (row (relevant_h st) (T - 1)) = hidden_dim model /\
  length (row (irrelevant_h st) (T - 1)) = hidden_dim model /\
  vadd (row (relevant_h st) (T - 1)) (row (irrelevant_h st) (T - 1))
  = (lstm_forward model word_vecs).1.
Proof.
  intros Hw Hne. cbn zeta.
  assert (HT : length word_vecs - 1 < length word_vecs).
  { destruct word_vecs; [done | cbn; lia]. }
  destruct (cd_text_loop_prefix (gates_of model) (hidden_dim model) word_vecs
              start stop (length word_vecs) ltac:(lia)) as [_ Hrows].
  specialize (Hrows _ HT).
  fold (cd_text_loop (gates_of model) (hidden_dim model) word_vecs start stop) in Hrows.
  destruct (cd_text_trace_sum model word_vecs start stop _ Hw HT) as [Hl Hs].
  rewrite <- Hrows in Hl, Hs. destruct Hl as (_ & _ & L3 & L4).
  cbn [rows_at r_relevant_h r_irrelevant_h r_relevant r_irrelevant] in *.
  do 2 (split; [done|]).
  replace (S (length word_vecs - 1)) with (length word_vecs) in Hs by lia.
  rewrite firstn_all in Hs. by rewrite <- Hs.
Qed.

End Sum.

(** *** Properties of [cd_text] *)

Lemma well_shaped_splittable model : well_shaped model -> splittable model.
Proof.
  intros (L1 & L2 & L3 & L4 & _). unfold splittable.
  rewrite L1, L2, (Nat.mul_comm 4), Nat.Div0.mod_mul.
  do 2 (split; [done|]).
  exists (vadd (bias_ih_l0 model) (bias_hh_l0 model)).
  split; [apply np_add_same; lia|].
  by rewrite length_vadd, L3, L4, Nat.min_id, (Nat.mul_comm 4), Nat.Div0.mod_mul.
Qed.

Lemma vsub_vadd_cancel (u b : vec) :
  length b = length u -> vsub (vadd u b) b = u.
Proof. intros H. vec_pointwise. ring. Qed.

(** C2. The two score vectors are the readout weight [W_out] alone, without
    the readout bias, applied to the last rows of [relevant_h] and
    [irrelevant_h], and their sum is the logit of the classifier before the
    readout bias is added: the output of the forward pass minus that bias. *)
Theorem cd_text_scores_sum (text : list (list nat)) (model : TextModel)
    (start stop : Z) :
  splits_three -> splits_two ->
  well_shaped model ->
  text <> [] -> Forall (fun r => r <> []) text ->
  exists word_vecs scores irrel_scores logits,
    column0 (embed_batch model text) = Ok word_vecs /\
    (let st := cd_text_loop (gates_of model) (hidden_dim model) word_vecs
                 start stop in
     let T := length word_vecs in
     scores = np_dot (hidden_to_label_weight model) (row (relevant_h st) (T - 1)) /\
     irrel_scores
     = np_dot (hidden_to_label_weight model) (row (irrelevant_h st) (T - 1))) /\
    cd_text text model start stop true = Ok (ScoresIrrel scores irrel_scores) /\
    cd_text text model start stop false = Ok (Scores scores) /\
    model_forward model text = Ok logits /\
    vadd scores irrel_scores = vsub logits (hidden_to_label_bias model).
Proof.
  intros H3 H2 Hw Hne Ht.
  pose proof (well_shaped_splittable model Hw) as Hs.
  destruct (cd_text_setup_Ok text model Hs Ht) as (wv & Hwv & Hlen & _).
  assert (Hwne : wv <> []).
  { intros ->. destruct text; [done | discriminate]. }
  destruct (cd_text_loop_sum H3 H2 model wv start stop Hw Hwne) as (Lr & Li & Hsum).
  eexists wv, _, _, _. split; [exact Hwv|].
  split; [split; reflexivity|].
  split; [by rewrite (cd_text_unfold text model start stop true wv)|].
  split; [by rewrite (cd_text_unfold text model start stop false wv)|].
  split.
  - unfold model_forward. rewrite Hwv. cbn. destruct wv; [done | reflexivity].
  - rewrite vsub_vadd_cancel.
    + rewrite <- np_dot_add_r by lia. by rewrite Hsum.
    + destruct Hw as (_ & _ & _ & _ & L5 & _). by rewrite length_np_dot.
Qed.


(** C3. At every timestep [t] the output gate is not split: one gate value
    [o], the sigmoid of the whole pre-activation (input term, hidden term on
    [prev_rel_h + prev_irrel_h], bias), multiplies both parts of the tanh
    split of the cell state to give [relevant_h[t]] and [irrelevant_h[t]]. *)
Theorem cd_text_output_gate_unsplit (g : gates) (hidden : nat)
    (word_vecs : list vec) (start stop : Z) (t : nat) :
  t < length word_vecs ->
  let st := cd_text_loop g hidden word_vecs start stop in
  let prev_rel_h := if 0 <? t then row (relevant_h st) (t - 1) else zeros hidden in
  let prev_irrel_h := if 0 <? t then row (irrelevant_h st) (t - 1) else zeros hidden in
  let o := sigmoid <$> vadd (vadd (np_dot (W_io g) (row word_vecs t))
                                  (np_dot (W_ho g) (vadd prev_rel_h prev_irrel_h)))
                            (b_o g) in
  let new_h := propagate_tanh_two (row (relevant st) t) (row (irrelevant st) t) in
  row (relevant_h st) t = vmul o new_h.1 /\
  row (irrelevant_h st) t = vmul o new_h.2.
Proof.
  intros Ht st. cbn zeta.
  pose proof (cd_text_loop_rows g hidden word_vecs start stop t Ht) as Hrows.
  cbn zeta in Hrows. fold st in Hrows.
  change (row (relevant_h st) t) with (r_relevant_h (rows_at st t)).
  change (row (irrelevant_h st) t) with (r_irrelevant_h (rows_at st t)).
  change (row (relevant st) t) with (r_relevant (rows_at st t)).
  change (row (irrelevant st) t) with (r_irrelevant (rows_at st t)).
  rewrite Hrows. by split.
Qed.

(** C4. At every timestep [t < T] of the loop of [cd_text], the
    input-to-hidden terms [W_ii x], [W_if x], [W_ig x], [W_io x] of the
    current word vector [x = word_vecs[t]] are added to the relevant
    pre-activations of the four gates when [start <= t <= stop], the
    irrelevant ones being the hidden terms on [irrelevant_h[t-1]] alone, and
    to the irrelevant ones otherwise, the relevant ones being the hidden
    terms on [relevant_h[t-1]] alone; and row [t] of the four arrays is what
    lines 120-143 compute from these pre-activations. *)
Theorem cd_text_input_routing (g : gates) (hidden : nat)
    (word_vecs : list vec) (start stop : Z) (t : nat) :
  t < length word_vecs ->
  let st := cd_text_loop g hidden word_vecs start stop in
  let x := row word_vecs t in
  let prev_rel_h := if 0 <? t then row (relevant_h st) (t - 1) else zeros hidden in
  let prev_irrel_h := if 0 <? t then row (irrelevant_h st) (t - 1) else zeros hidden in
  let to_relevant :=
    {| rel_i := vadd (np_dot (W_hi g) prev_rel_h) (np_dot (W_ii g) x);
       rel_g := vadd (np_dot (W_hg g) prev_rel_h) (np_dot (W_ig g) x);
       rel_f := vadd (np_dot (W_hf g) prev_rel_h) (np_dot (W_if g) x);
       rel_o := vadd (np_dot (W_ho g) prev_rel_h) (np_dot (W_io g) x);
       irrel_i := np_dot (W_hi g) prev_irrel_h;
       irrel_g := np_dot (W_hg g) prev_irrel_h;
       irrel_f := np_dot (W_hf g) prev_irrel_h;
       irrel_o := np_dot (W_ho g) prev_irrel_h |} in
  let to_irrelevant :=
    {| rel_i := np_dot (W_hi g) prev_rel_h;
       rel_g := np_dot (W_hg g) prev_rel_h;
       rel_f := np_dot (W_hf g) prev_rel_h;
       rel_o := np_dot (W_ho g) prev_rel_h;
       irrel_i := vadd (np_dot (W_hi g) prev_irrel_h) (np_dot (W_ii g) x);
       irrel_g := vadd (np_dot (W_hg g) prev_irrel_h) (np_dot (W_ig g) x);
       irrel_f := vadd (np_dot (W_hf g) prev_irrel_h) (np_dot (W_if g) x);
       irrel_o := vadd (np_dot (W_ho g) prev_irrel_h) (np_dot (W_io g) x) |} in
  ((start <= Z.of_nat t <= stop)%Z ->
     gate_preacts g start stop t x prev_rel_h prev_irrel_h = to_relevant /\
     rows_at st t
     = cd_text_cell g hidden word_vecs start stop t to_relevant
         (rows_at st (t - 1))) /\
  (~ (start <= Z.of_nat t <= stop)%Z ->
     gate_preacts g start stop t x prev_rel_h prev_irrel_h = to_irrelevant /\
     rows_at st t
     = cd_text_cell g hidden word_vecs start stop t to_irrelevant
         (rows_at st (t - 1))).
Proof.
  intros Ht st. cbn zeta.
  pose proof (cd_text_loop_rows g hidden word_vecs start stop t Ht) as Hrows.
  cbn zeta in Hrows. fold st in Hrows.
  rewrite cd_text_rows_cell in Hrows.
  cbn [rows_at r_relevant_h r_irrelevant_h] in Hrows.
  assert (Hin : in_range start stop t = true <-> (start <= Z.of_nat t <= stop)%Z).
  { unfold in_range. rewrite andb_true_iff, !Z.leb_le. done. }
  rewrite Hrows. unfold gate_preacts. split; intros H.
  - by rewrite (proj2 Hin H).
  - destruct (in_range start stop t); [exfalso; by apply H, Hin | done].
Qed.

(** C5. At every timestep [t] the cross term
    [bias_contrib_i * bias_contrib_g] goes to [relevant[t]] if [t] lies in
    [start, stop] and to [irrelevant[t]] otherwise; the other side receives
    none of it.  ([forget_rel] and [forget_irrel] are the forget-gate terms
    added when [t > 0].) *)
Theorem cd_text_bias_cross_term (g : gates) (hidden : nat)
    (word_vecs : list vec) (start stop : Z) (t : nat) :
  t < length word_vecs ->
  let st := cd_text_loop g hidden word_vecs start stop in
  let prev_rel_h := if 0 <? t then row (relevant_h st) (t - 1) else zeros hidden in
  let prev_irrel_h := if 0 <? t then row (irrelevant_h st) (t - 1) else zeros hidden in
  let pa := gate_preacts g start stop t (row word_vecs t) prev_rel_h prev_irrel_h in
  let '(rel_contrib_i, irrel_contrib_i, bias_contrib_i) :=
    propagate_three (rel_i pa) (irrel_i pa) (b_i g) sigmoid in
  let '(rel_contrib_g, irrel_contrib_g, bias_contrib_g) :=
    propagate_three (rel_g pa) (irrel_g pa) (b_g g) tanh in
  let '(rel_contrib_f, irrel_contrib_f, bias_contrib_f) :=
    propagate_three (rel_f pa) (irrel_f pa) (b_f g) sigmoid in
  let base_rel := vadd (vmul rel_contrib_i (vadd rel_contrib_g bias_contrib_g))
                       (vmul bias_contrib_i rel_contrib_g) in
  let base_irrel :=
    vadd (vmul irrel_contrib_i (vadd (vadd rel_contrib_g irrel_contrib_g) bias_contrib_g))
         (vmul (vadd rel_contrib_i bias_contrib_i) irrel_contrib_g) in
  let cross := vmul bias_contrib_i bias_contrib_g in
  let forget_rel v :=
    if 0 <? t
    then vadd v (vmul (vadd rel_contrib_f bias_contrib_f) (row (relevant st) (t - 1)))
    else v in
  let forget_irrel v :=
    if 0 <? t
    then vadd v (vadd (vmul (vadd (vadd rel_contrib_f irrel_contrib_f) bias_contrib_f)
                            (row (irrelevant st) (t - 1)))
                      (vmul irrel_contrib_f (row (relevant st) (t - 1))))
    else v in
  ((start <= Z.of_nat t <= stop)%Z ->
     row (relevant st) t = forget_rel (vadd base_rel cross) /\
     row (irrelevant st) t = forget_irrel base_irrel) /\
  (~ (start <= Z.of_nat t <= stop)%Z ->
     row (relevant st) t = forget_rel base_rel /\
     row (irrelevant st) t = forget_irrel (vadd base_irrel cross)).
Proof.
  intros Ht st. cbn zeta.
  pose proof (cd_text_loop_rows g hidden word_vecs start stop t Ht) as Hrows.
  cbn zeta in Hrows. fold st in Hrows.
  change (row (relevant st) t) with (r_relevant (rows_at st t)).
  change (row (irrelevant st) t) with (r_irrelevant (rows_at st t)).
  rewrite Hrows. clear Hrows.
  unfold cd_text_rows. cbn [r_relevant r_irrelevant rows_at r_relevant_h r_irrelevant_h].
  set (pa := gate_preacts _ _ _ _ _ _ _).
  destruct (propagate_three (rel_i pa) (irrel_i pa) (b_i g) sigmoid) as [[rci ici] bci].
  destruct (propagate_three (rel_g pa) (irrel_g pa) (b_g g) tanh) as [[rcg icg] bcg].
  destruct (propagate_three (rel_f pa) (irrel_f pa) (b_f g) sigmoid) as [[rcf icf] bcf].
  cbn [fst snd]. unfold add_unless.
  assert (Hin : in_range start stop t = true <-> (start <= Z.of_nat t <= stop)%Z).
  { unfold in_range. rewrite andb_true_iff, !Z.leb_le. done. }
  split; intros H.
  - apply Hin in H. rewrite H. cbn [negb]. by destruct (0 <? t).
  - destruct (in_range start stop t); [exfalso; apply H, Hin; done|].
    cbn [negb]. by destruct (0 <? t).
Qed.

(** C7 (as amended). [cd_text] checks neither [start <= stop] nor that the
    range lies in [0, T-1]: on a non-empty batch and a well-shaped model it
    returns scores for every [start] and [stop], and the range matters only
    through the timesteps [t < T] with [start <= t <= stop] (none of them
    when [start > stop]). *)
Theorem cd_text_no_range_check (text : list (list nat)) (model : TextModel)
    (start stop start' stop' : Z) (flag : bool) :
  well_shaped model ->
  text <> [] ->
  Forall (fun r => r <> []) text ->
  (exists res, cd_text text model start stop flag = Ok res) /\
  ((forall t, t < length text -> in_range start stop t = in_range start' stop' t) ->
   cd_text text model start stop flag = cd_text text model start' stop' flag).
Proof.
  intros Hw Hne Ht. pose proof (well_shaped_splittable model Hw) as Hs.
  destruct (cd_text_setup_Ok text model Hs Ht) as (wv & Hwv & Hlen & _).
  split.
  - eexists. by apply cd_text_unfold.
  - intros H. rewrite !(cd_text_unfold text model _ _ flag wv) by done.
    rewrite (cd_text_loop_range _ _ wv start stop start' stop'); [done|].
    intros t Hlt. apply H. lia.
Qed.

(** C9. [cd_text] reads column 0 of the batch only: two batches with the same
    first column give the same result, whatever their other columns. *)
Theorem cd_text_first_column_only (text1 text2 : list (list nat))
    (model : TextModel) (start stop : Z) (flag : bool) :
  Forall2 (fun r1 r2 => r1 !! 0 = r2 !! 0) text1 text2 ->
  cd_text text1 model start stop flag = cd_text text2 model start stop flag.
Proof.
  intros H. unfold cd_text, cd_text_setup.
  by rewrite (column0_ext _ _ (embed_batch_column0 model _ _ H)).
Qed.

(** *** Further properties of [cd_text] *)

Lemma column0_empty_row {A} (x : list (list A)) :
  Exists (fun r => r = []) x -> column0 x = Raise IndexError.
Proof.
  induction 1 as [r x ->|r x _ IH]; [done|].
  cbn. destruct (py_index r 0) as [a|e] eqn:E.
  - cbn. by rewrite IH.
  - unfold py_index in E. destruct (r !! 0); [done | by injection E as <-].
Qed.

Lemma embed_batch_empty_row model (x : list (list nat)) :
  Exists (fun r => r = []) x ->
  Exists (fun r : list vec => r = []) (embed_batch model x).
Proof.
  intros H. unfold embed_batch. apply Exists_fmap.
  eapply Exists_impl; [exact H|]. by intros r ->.
Qed.

(** X9. When the state dict of the LSTM does not split in four equal parts
    (the rows of [weight_ih_l0] or of [weight_hh_l0] are not a multiple of 4,
    the two biases have lengths that differ and are both other than 1, so
    that they cannot be added, or the entries of their sum are not a multiple
    of 4), [cd_text] raises [ValueError], whatever the batch and the range.
    A bias of a single entry is broadcast, and is no such case. *)
Theorem cd_text_unsplittable_raises (text : list (list nat)) (model : TextModel)
    (start stop : Z) (flag : bool) :
  length (weight_ih_l0 model) mod 4 <> 0 \/
  length (weight_hh_l0 model) mod 4 <> 0 \/
  (length (bias_ih_l0 model) <> length (bias_hh_l0 model) /\
   length (bias_ih_l0 model) <> 1 /\ length (bias_hh_l0 model) <> 1) \/
  (forall b, np_add (bias_ih_l0 model) (bias_hh_l0 model) = Ok b ->
             length b mod 4 <> 0) ->
  cd_text text model start stop flag = Raise ValueError.
Proof.
  intros Hn. unfold cd_text, cd_text_setup, np_split4.
  destruct (length (weight_ih_l0 model) mod 4 =? 0) eqn:E1; [|done].
  destruct (length (weight_hh_l0 model) mod 4 =? 0) eqn:E2; [|done].
  apply Nat.eqb_eq in E1, E2. cbn [mbind result_bind].
  destruct (np_add (bias_ih_l0 model) (bias_hh_l0 model)) as [b|e] eqn:Eb.
  - cbn [mbind result_bind].
    destruct (length b mod 4 =? 0) eqn:E3; [|done].
    apply Nat.eqb_eq in E3. exfalso.
    destruct Hn as [Hn|[Hn|[(H1 & H2 & H3)|Hn]]]; [done | done | | by apply (Hn b)].
    unfold np_add in Eb.
    apply Nat.eqb_neq in H1, H2, H3. by rewrite H1, H2, H3 in Eb.
  - by rewrite (np_add_raises _ _ _ Eb).
Qed.

(** X10. On an empty sequence, or on a batch without sequences (a timestep
    with no column), [cd_text] raises [IndexError]: there is no last hidden
    state, or no first column, to read. *)
Theorem cd_text_empty_batch_raises (text : list (list nat)) (model : TextModel)
    (start stop : Z) (flag : bool) :
  splittable model ->
  text = [] \/ Exists (fun r => r = []) text ->
  cd_text text model start stop flag = Raise IndexError.
Proof.
  intros (H1 & H2 & b & Hb & H3) Ht. unfold cd_text, cd_text_setup.
  rewrite (np_split4_Ok _ H1), (np_split4_Ok _ H2), Hb.
  cbn [mbind result_bind]. rewrite (np_split4_Ok _ H3).
  cbn [mbind result_bind]. destruct Ht as [->|Ht].
  - reflexivity.
  - by rewrite (column0_empty_row _ (embed_batch_empty_row model text Ht)).
Qed.

Lemma cd_text_rows_word g hidden word_vecs word_vecs' start stop i prev :
  row word_vecs i = row word_vecs' i ->
  cd_text_rows g hidden word_vecs start stop i prev
  = cd_text_rows g hidden word_vecs' start stop i prev.
Proof. intros H. unfold cd_text_rows. by rewrite H. Qed.

Lemma cd_text_trace_prefix g hidden (xs ys : list vec) start stop t :
  t < length xs ->
  cd_text_trace g hidden (xs ++ ys) start stop t
  = cd_text_trace g hidden xs start stop t.
Proof.
  assert (Hrow : forall k, k < length xs -> row (xs ++ ys) k = row xs k).
  { intros k Hk. unfold row, nth_d. by rewrite lookup_app_l. }
  induction t as [|t IH]; intros Ht; cbn [cd_text_trace].
  - rewrite (cd_text_rows_word g hidden (xs ++ ys) xs) by (apply Hrow; lia).
    apply cd_text_rows_0.
  - rewrite IH by lia. apply cd_text_rows_word, Hrow. lia.
Qed.

(** X11. The decomposition is causal: the rows the loop writes for timestep
    [t] depend on the tokens up to [t] only, so the four arrays computed for
    a sequence start with the arrays computed for any of its prefixes. *)
Theorem cd_text_rows_causal (g : gates) (hidden : nat) (xs ys : list vec)
    (start stop : Z) (t : nat) :
  t < length xs ->
  rows_at (cd_text_loop g hidden (xs ++ ys) start stop) t
  = rows_at (cd_text_loop g hidden xs start stop) t.
Proof.
  intros Ht.
  destruct (cd_text_loop_prefix g hidden (xs ++ ys) start stop
              (length (xs ++ ys)) ltac:(lia)) as [_ H1].
  destruct (cd_text_loop_prefix g hidden xs start stop (length xs) ltac:(lia))
    as [_ H2].
  unfold cd_text_loop.
  rewrite H1 by (rewrite length_app; lia). rewrite H2 by lia.
  by apply cd_text_trace_prefix.
Qed.

(** *** A side that receives no token receives no score *)

(** Modelled from the spec: what [propagate_three] of the missing
    [cd_propagate] guarantees beyond [splits_three]: its first two outputs
    are the "relevant-only" and "irrelevant-only" contributions, so a side
    whose input is zero contributes zero. *)
Definition null_three : Prop :=
  forall (a b c : vec) (act : F -> F) (n : nat),
    length a = n -> length b = n -> length c = n ->
    (a = zeros n -> (propagate_three a b c act).1.1 = zeros n) /\
    (b = zeros n -> (propagate_three a b c act).1.2 = zeros n).

(** Modelled from the spec: the same for [propagate_tanh_two] of the missing
    [cd_propagate]. *)
Definition null_two : Prop :=
  forall (a b : vec) (n : nat),
    length a = n -> length b = n ->
    (a = zeros n -> (propagate_tanh_two a b).1 = zeros n) /\
    (b = zeros n -> (propagate_tanh_two a b).2 = zeros n).

Lemma zero_products_l n (u v : vec) :
  length u = n -> length v = n ->
  vadd (vmul (zeros n) (vadd (zeros n) u)) (vmul v (zeros n)) = zeros n.
Proof. intros. vec_pointwise. ring. Qed.

Lemma zero_products_r n (u v u' w : vec) :
  length u = n -> length v = n -> length u' = n -> length w = n ->
  vadd (vmul (zeros n) (vadd (vadd u (zeros n)) v)) (vmul (vadd u' w) (zeros n))
  = zeros n.
Proof. intros. vec_pointwise. ring. Qed.

Lemma zero_forget_l n (u : vec) :
  length u = n -> vadd (zeros n) (vmul (vadd (zeros n) u) (zeros n)) = zeros n.
Proof. intros. vec_pointwise. ring. Qed.

Lemma zero_forget_r n (u v w : vec) :
  length u = n -> length v = n -> length w = n ->
  vadd (zeros n) (vadd (vmul (vadd (vadd u (zeros n)) v) (zeros n))
                       (vmul (zeros n) w)) = zeros n.
Proof. intros. vec_pointwise. ring. Qed.

Lemma vmul_zeros_r n (o : vec) : n <= length o -> vmul o (zeros n) = zeros n.
Proof. intros. vec_pointwise. ring. Qed.

Lemma vadd_zeros_l n (u : vec) : length u = n -> vadd (zeros n) u = u.
Proof. intros. vec_pointwise. ring. Qed.

Lemma vadd_zeros_r n (u : vec) : length u = n -> vadd u (zeros n) = u.
Proof. intros. vec_pointwise. ring. Qed.

Section Null.
Hypothesis propagate_three_splits : splits_three.
Hypothesis propagate_tanh_two_splits : splits_two.
Hypothesis propagate_three_null : null_three.
Hypothesis propagate_tanh_two_null : null_two.

Lemma section4_lengths model j :
  well_shaped model -> j < 4 ->
  length (section4 j (weight_hh_l0 model)) = hidden_dim model /\
  length (section4 j (weight_ih_l0 model)) = hidden_dim model /\
  length (section4 j (vadd (bias_ih_l0 model) (bias_hh_l0 model)))
  = hidden_dim model.
Proof.
  intros (L1 & L2 & L3 & L4 & _) Hj.
  repeat split; apply length_section4; try done. rewrite length_vadd. lia.
Qed.

(** One gate whose relevant pre-activation is zero. *)
Lemma gate_null_rel (act : F -> F) model j x pih :
  well_shaped model -> j < 4 ->
  let out :=
    propagate_three
      (zeros (hidden_dim model))
      (vadd (np_dot (section4 j (weight_hh_l0 model)) pih)
            (np_dot (section4 j (weight_ih_l0 model)) x))
      (section4 j (vadd (bias_ih_l0 model) (bias_hh_l0 model))) act in
  out.1.1 = zeros (hidden_dim model) /\
  length out.1.2 = hidden_dim model /\ length out.2 = hidden_dim model.
Proof.
  intros Hw Hj out. destruct (section4_lengths model j Hw Hj) as (Lh & Li & Lb).
  set (n := hidden_dim model) in *.
  set (irrel := vadd _ _) in *.
  set (b := section4 j (vadd _ _)) in *.
  assert (Lirrel : length irrel = n) by (subst irrel; veclen).
  destruct (propagate_three_splits (zeros n) irrel b act)
    as (_ & Lo2 & Lo3 & _); [by rewrite length_zeros, Lirrel | by rewrite Lirrel |].
  rewrite length_zeros in Lo2, Lo3.
  split; [|by split].
  by apply (propagate_three_null (zeros n) irrel b act n);
    rewrite ?length_zeros.
Qed.

(** One gate whose irrelevant pre-activation is zero. *)
Lemma gate_null_irrel (act : F -> F) model j x prh :
  well_shaped model -> j < 4 ->
  let out :=
    propagate_three
      (vadd (np_dot (section4 j (weight_hh_l0 model)) prh)
            (np_dot (section4 j (weight_ih_l0 model)) x))
      (zeros (hidden_dim model))
      (section4 j (vadd (bias_ih_l0 model) (bias_hh_l0 model))) act in
  out.1.2 = zeros (hidden_dim model) /\
  length out.1.1 = hidden_dim model /\ length out.2 = hidden_dim model.
Proof.
  intros Hw Hj out. destruct (section4_lengths model j Hw Hj) as (Lh & Li & Lb).
  set (n := hidden_dim model) in *.
  set (rel := vadd _ _) in *.
  set (b := section4 j (vadd _ _)) in *.
  assert (Lrel : length rel = n) by (subst rel; veclen).
  destruct (propagate_three_splits rel (zeros n) b act)
    as (Lo1 & _ & Lo3 & _); [by rewrite length_zeros, Lrel | by rewrite length_zeros |].
  rewrite Lrel in Lo1, Lo3.
  split; [|by split].
  by apply (propagate_three_null rel (zeros n) b act n);
    rewrite ?length_zeros.
Qed.

Lemma output_gate_length model x h :
  well_shaped model ->
  length (sigmoid <$>
            vadd (vadd (np_dot (section4 3 (weight_ih_l0 model)) x)
                       (np_dot (section4 3 (weight_hh_l0 model)) h))
                 (section4 3 (vadd (bias_ih_l0 model) (bias_hh_l0 model))))
  = hidden_dim model.
Proof.
  intros Hw. destruct (section4_lengths model 3 Hw ltac:(lia)) as (Lh & Li & Lb).
  veclen.
Qed.

(** One iteration outside the range keeps the relevant rows zero. *)
Lemma cd_text_rows_null_rel model word_vecs start stop i prev :
  well_shaped model ->
  (0 < i -> rows_lengths (hidden_dim model) prev) ->
  in_range start stop i = false ->
  (0 < i -> r_relevant prev = zeros (hidden_dim model) /\
            r_relevant_h prev = zeros (hidden_dim model)) ->
  let new := cd_text_rows (gates_of model) (hidden_dim model) word_vecs
               start stop i prev in
  r_relevant new = zeros (hidden_dim model) /\
  r_relevant_h new = zeros (hidden_dim model).
Proof.
  intros Hw Hprev Hin Hzero. cbn zeta.
  set (n := hidden_dim model) in *.
  unfold cd_text_rows. rewrite gate_preacts_if. cbn zeta.
  cbn [rel_i rel_g rel_f rel_o irrel_i irrel_g irrel_f irrel_o
       r_relevant r_irrelevant r_relevant_h r_irrelevant_h
       gates_of W_ii W_if W_ig W_io W_hi W_hf W_hg W_ho b_i b_f b_g b_o].
  rewrite !(bias_sum_well_shaped model Hw).
  rewrite Hin. cbn [negb]. fold n.
  assert (Hprh : (if 0 <? i then r_relevant_h prev else zeros n) = zeros n).
  { destruct (0 <? i) eqn:Hpos; [|done].
    apply Nat.ltb_lt in Hpos. by destruct (Hzero Hpos). }
  rewrite Hprh. clear Hprh.
  set (pih := if 0 <? i then r_irrelevant_h prev else zeros n).
  set (x := row word_vecs i).
  destruct (section4_lengths model 0 Hw ltac:(lia)) as (Lh0 & _ & _).
  destruct (section4_lengths model 1 Hw ltac:(lia)) as (Lh1 & _ & _).
  destruct (section4_lengths model 2 Hw ltac:(lia)) as (Lh2 & _ & _).
  rewrite !np_dot_zeros_r, Lh0, Lh1, Lh2. fold n.
  destruct (gate_null_rel sigmoid model 0 x pih Hw ltac:(lia)) as (Zi & Li2 & Li3).
  destruct (gate_null_rel tanh model 2 x pih Hw ltac:(lia)) as (Zg & Lg2 & Lg3).
  destruct (gate_null_rel sigmoid model 1 x pih Hw ltac:(lia)) as (Zf & Lf2 & Lf3).
  fold n in Zi, Zg, Zf, Li2, Li3, Lg2, Lg3, Lf2, Lf3.
  rewrite Zi, Zg, Zf.
  set (ci := propagate_three (zeros n) _ (section4 0 _) sigmoid) in *.
  set (cg := propagate_three (zeros n) _ (section4 2 _) tanh) in *.
  set (cf := propagate_three (zeros n) _ (section4 1 _) sigmoid) in *.
  destruct (cell_sum n (zeros n) ci.1.2 ci.2 (zeros n) cg.1.2 cg.2
              (zeros n) cf.1.2 cf.2 (r_relevant prev) (r_irrelevant prev)
              false (0 <? i))
    as (_ & Lirrel & _); rewrite ?length_zeros; try done.
  { intros Hpos. apply Nat.ltb_lt in Hpos.
    by destruct (Hprev Hpos) as (? & ? & _ & _). }
  set (irrel2 := add_unless (negb (0 <? i)) (add_unless false _ _) _) in *.
  assert (Hrel2 :
    add_unless (negb (0 <? i))
      (add_unless true
         (vadd (vmul (zeros n) (vadd (zeros n) cg.2)) (vmul ci.2 (zeros n)))
         (vmul ci.2 cg.2))
      (vmul (vadd (zeros n) cf.2) (r_relevant prev)) = zeros n).
  { unfold add_unless. rewrite (zero_products_l n cg.2 ci.2) by done.
    destruct (0 <? i) eqn:Hpos; cbn [negb]; [|done].
    apply Nat.ltb_lt in Hpos. destruct (Hzero Hpos) as [-> _].
    by apply zero_forget_l. }
  rewrite Hrel2. split; [done|].
  destruct (propagate_tanh_two_null (zeros n) irrel2 n) as [-> _];
    rewrite ?length_zeros; try done.
  apply vmul_zeros_r. by rewrite output_gate_length.
Qed.

(** One iteration inside the range keeps the irrelevant rows zero. *)
Lemma cd_text_rows_null_irrel model word_vecs start stop i prev :
  well_shaped model ->
  (0 < i -> rows_lengths (hidden_dim model) prev) ->
  in_range start stop i = true ->
  (0 < i -> r_irrelevant prev = zeros (hidden_dim model) /\
            r_irrelevant_h prev = zeros (hidden_dim model)) ->
  let new := cd_text_rows (gates_of model) (hidden_dim model) word_vecs
               start stop i prev in
  r_irrelevant new = zeros (hidden_dim model) /\
  r_irrelevant_h new = zeros (hidden_dim model).
Proof.
  intros Hw Hprev Hin Hzero. cbn zeta.
  set (n := hidden_dim model) in *.
  unfold cd_text_rows. rewrite gate_preacts_if. cbn zeta.
  cbn [rel_i rel_g rel_f rel_o irrel_i irrel_g irrel_f irrel_o
       r_relevant r_irrelevant r_relevant_h r_irrelevant_h
       gates_of W_ii W_if W_ig W_io W_hi W_hf W_hg W_ho b_i b_f b_g b_o].
  rewrite !(bias_sum_well_shaped model Hw).
  rewrite Hin. cbn [negb]. fold n.
  assert (Hpih : (if 0 <? i then r_irrelevant_h prev else zeros n) = zeros n).
  { destruct (0 <? i) eqn:Hpos; [|done].
    apply Nat.ltb_lt in Hpos. by destruct (Hzero Hpos). }
  rewrite Hpih. clear Hpih.
  set (prh := if 0 <? i then r_relevant_h prev else zeros n).
  set (x := row word_vecs i).
  destruct (section4_lengths model 0 Hw ltac:(lia)) as (Lh0 & _ & _).
  destruct (section4_lengths model 1 Hw ltac:(lia)) as (Lh1 & _ & _).
  destruct (section4_lengths model 2 Hw ltac:(lia)) as (Lh2 & _ & _).
  rewrite !np_dot_zeros_r, Lh0, Lh1, Lh2. fold n.
  destruct (gate_null_irrel sigmoid model 0 x prh Hw ltac:(lia)) as (Zi & Li1 & Li3).
  destruct (gate_null_irrel tanh model 2 x prh Hw ltac:(lia)) as (Zg & Lg1 & Lg3).
  destruct (gate_null_irrel sigmoid model 1 x prh Hw ltac:(lia)) as (Zf & Lf1 & Lf3).
  fold n in Zi, Zg, Zf, Li1, Li3, Lg1, Lg3, Lf1, Lf3.
  rewrite Zi, Zg, Zf.
  set (ci := propagate_three _ (zeros n) (section4 0 _) sigmoid) in *.
  set (cg := propagate_three _ (zeros n) (section4 2 _) tanh) in *.
  set (cf := propagate_three _ (zeros n) (section4 1 _) sigmoid) in *.
  destruct (cell_sum n ci.1.1 (zeros n) ci.2 cg.1.1 (zeros n) cg.2
              cf.1.1 (zeros n) cf.2 (r_relevant prev) (r_irrelevant prev)
              true (0 <? i))
    as (Lrel & _ & _); rewrite ?length_zeros; try done.
  { intros Hpos. apply Nat.ltb_lt in Hpos.
    by destruct (Hprev Hpos) as (? & ? & _ & _). }
  cbn [negb] in Lrel.
  set (rel2 := add_unless (negb (0 <? i)) (add_unless false _ _) _) in *.
  assert (Hirrel2 :
    add_unless (negb (0 <? i))
      (add_unless true
         (vadd (vmul (zeros n) (vadd (vadd cg.1.1 (zeros n)) cg.2))
               (vmul (vadd ci.1.1 ci.2) (zeros n)))
         (vmul ci.2 cg.2))
      (vadd (vmul (vadd (vadd cf.1.1 (zeros n)) cf.2) (r_irrelevant prev))
            (vmul (zeros n) (r_relevant prev))) = zeros n).
  { unfold add_unless.
    rewrite (zero_products_r n cg.1.1 cg.2 ci.1.1 ci.2) by done.
    destruct (0 <? i) eqn:Hpos; cbn [negb]; [|done].
    apply Nat.ltb_lt in Hpos. destruct (Hzero Hpos) as [-> _].
    destruct (Hprev Hpos) as (Lr & _).
    by apply zero_forget_r. }
  rewrite Hirrel2. split; [done|].
  destruct (propagate_tanh_two_null rel2 (zeros n) n) as [_ ->];
    rewrite ?length_zeros; try done.
  apply vmul_zeros_r. by rewrite output_gate_length.
Qed.

(** The rows of a run in which no timestep is relevant, or every timestep
    is. *)
Lemma cd_text_trace_null model word_vecs start stop (side : bool) k :
  well_shaped model ->
  (forall t, t < length word_vecs -> in_range start stop t = side) ->
  k < length word_vecs ->
  let r := cd_text_trace (gates_of model) (hidden_dim model) word_vecs
             start stop k in
  if side
  then r_irrelevant r = zeros (hidden_dim model) /\
       r_irrelevant_h r = zeros (hidden_dim model)
  else r_relevant r = zeros (hidden_dim model) /\
       r_relevant_h r = zeros (hidden_dim model).
Proof.
  intros Hw Hside. induction k as [|k IH]; intros Hk; cbn zeta.
  - cbn [cd_text_trace]. destruct side.
    + apply cd_text_rows_null_irrel; try done; [lia | by apply Hside | lia].
    + apply cd_text_rows_null_rel; try done; [lia | by apply Hside | lia].
  - cbn [cd_text_trace].
    destruct (cd_text_trace_sum propagate_three_splits propagate_tanh_two_splits
                model word_vecs start stop k Hw ltac:(lia)) as [Hl _].
    specialize (IH ltac:(lia)). cbn zeta in IH. destruct side.
    + apply cd_text_rows_null_irrel; try done. by apply Hside.
    + apply cd_text_rows_null_rel; try done. by apply Hside.
Qed.

(** The last hidden rows of such a run. *)
Lemma cd_text_loop_null model word_vecs start stop (side : bool) :
  well_shaped model -> word_vecs <> [] ->
  (forall t, t < length word_vecs -> in_range start stop t = side) ->
  let st := cd_text_loop (gates_of model) (hidden_dim model) word_vecs start stop in
  let T := length word_vecs in
  let h := (lstm_forward model word_vecs).1 in
  if side
  then row (irrelevant_h st) (T - 1) = zeros (hidden_dim model) /\
       row (relevant_h st) (T - 1) = h
  else row (relevant_h st) (T - 1) = zeros (hidden_dim model) /\
       row (irrelevant_h st) (T - 1) = h.
Proof.
  intros Hw Hne Hside. cbn zeta.
  assert (HT : length word_vecs - 1 < length word_vecs).
  { destruct word_vecs; [done | cbn; lia]. }
  destruct (cd_text_loop_sum propagate_three_splits propagate_tanh_two_splits
              model word_vecs start stop Hw Hne) as (Lr & Li & Hsum).
  destruct (cd_text_loop_prefix (gates_of model) (hidden_dim model) word_vecs
              start stop (length word_vecs) ltac:(lia)) as [_ Hrows].
  specialize (Hrows _ HT).
  fold (cd_text_loop (gates_of model) (hidden_dim model) word_vecs start stop) in Hrows.
  pose proof (cd_text_trace_null model word_vecs start stop side _ Hw Hside HT) as Hn.
  cbn zeta in Hn. rewrite <- Hrows in Hn.
  cbn [rows_at r_relevant_h r_irrelevant_h r_relevant r_irrelevant] in Hn.
  destruct side; destruct Hn as [_ Hz]; (split; [exact Hz|]);
    rewrite Hz in Hsum; rewrite <- Hsum.
  - by rewrite vadd_zeros_r.
  - by rewrite vadd_zeros_l.
Qed.

End Null.

(** X12. When no timestep lies in the range (as when [start > stop]), and
    the two primitives give a zero input a zero contribution, [cd_text]
    attributes nothing to the relevant side: [scores] is all zero and
    [irrel_scores] is the whole logit of the classifier before the readout
    bias. *)
Theorem cd_text_empty_range (text : list (list nat)) (model : TextModel)
    (start stop : Z) :
  splits_three -> splits_two -> null_three -> null_two ->
  well_shaped model ->
  text <> [] -> Forall (fun r => r <> []) text ->
  (forall t, t < length text -> in_range start stop t = false) ->
  exists irrel_scores logits,
    cd_text text model start stop true
    = Ok (ScoresIrrel (zeros (length (hidden_to_label_weight model))) irrel_scores) /\
    model_forward model text = Ok logits /\
    irrel_scores = vsub logits (hidden_to_label_bias model).
Proof.
  intros H3 H2 N3 N2 Hw Hne Ht Hout.
  pose proof (well_shaped_splittable model Hw) as Hs.
  destruct (cd_text_setup_Ok text model Hs Ht) as (wv & Hwv & Hlen & _).
  assert (Hwne : wv <> []) by (intros ->; destruct text; [done | discriminate]).
  destruct (cd_text_loop_null H3 H2 N3 N2 model wv start stop false Hw Hwne)
    as [Hz Hh]; [by rewrite Hlen|].
  eexists _, _. split; [|split].
  - rewrite (cd_text_unfold text model start stop true wv) by done.
    by rewrite Hz, np_dot_zeros_r.
  - unfold model_forward. rewrite Hwv. cbn. destruct wv; [done | reflexivity].
  - rewrite Hh, vsub_vadd_cancel; [done|].
    destruct Hw as (_ & _ & _ & _ & L5 & _). by rewrite length_np_dot.
Qed.

(** X13. When every timestep lies in the range, and the two primitives give
    a zero input a zero contribution, [cd_text] attributes nothing to the
    irrelevant side: [irrel_scores] is all zero and [scores] is the whole
    logit of the classifier before the readout bias. *)
Theorem cd_text_full_range (text : list (list nat)) (model : TextModel)
    (start stop : Z) :
  splits_three -> splits_two -> null_three -> null_two ->
  well_shaped model ->
  text <> [] -> Forall (fun r => r <> []) text ->
  (forall t, t < length text -> in_range start stop t = true) ->
  exists scores logits,
    cd_text text model start stop true
    = Ok (ScoresIrrel scores (zeros (length (hidden_to_label_weight model)))) /\
    model_forward model text = Ok logits /\
    scores = vsub logits (hidden_to_label_bias model).
Proof.
  intros H3 H2 N3 N2 Hw Hne Ht Hin.
  pose proof (well_shaped_splittable model Hw) as Hs.
  destruct (cd_text_setup_Ok text model Hs Ht) as (wv & Hwv & Hlen & _).
  assert (Hwne : wv <> []) by (intros ->; destruct text; [done | discriminate]).
  destruct (cd_text_loop_null H3 H2 N3 N2 model wv start stop true Hw Hwne)
    as [Hz Hh]; [by rewrite Hlen|].
  eexists _, _. split; [|split].
  - rewrite (cd_text_unfold text model start stop true wv) by done.
    by rewrite Hz, np_dot_zeros_r.
  - unfold model_forward. rewrite Hwv. cbn. destruct wv; [done | reflexivity].
  - rewrite Hh, vsub_vadd_cancel; [done|].
    destruct Hw as (_ & _ & _ & _ & L5 & _). by rewrite length_np_dot.
Qed.

End TextPropagator.

(** ** The modelled primitives meet their specification *)

Section SpecPrimitives.
Context {F : Type} {SF : Scalar F}.
Add Ring Fring_spec : F_ring.

Lemma half_three (A B C ABC : F) :
  Fadd (Fadd (Fmul Fhalf (Fsub (Fadd (Fsub A C) ABC) B))
             (Fmul Fhalf (Fsub (Fadd (Fsub B C) ABC) A))) C = ABC.
Proof.
  transitivity (Fadd (Fmul (Fadd Fhalf Fhalf) (Fsub ABC C)) C); [ring|].
  rewrite F_half. ring.
Qed.

Lemma half_two (A B AB : F) :
  Fadd (Fmul Fhalf (Fadd A (Fsub AB B))) (Fmul Fhalf (Fadd B (Fsub AB A))) = AB.
Proof.
  transitivity (Fmul (Fadd Fhalf Fhalf) AB); [ring|].
  rewrite F_half. ring.
Qed.

Lemma propagate_three_spec_splits : splits_three propagate_three_spec.
Proof.
  intros a b c act Hab Hbc. unfold propagate_three_spec. cbn [fst snd].
  repeat split; try veclen.
  vec_pointwise. by apply half_three.
Qed.

Lemma propagate_tanh_two_spec_splits (tanh : F -> F) :
  splits_two tanh (propagate_tanh_two_spec tanh).
Proof.
  intros a b Hab. unfold propagate_tanh_two_spec. cbn [fst snd].
  repeat split; try veclen.
  vec_pointwise. by apply half_two.
Qed.

Lemma propagate_dropout_spec_eval (draw r i : list F) (m : TorchModule) :
  training m = false -> propagate_dropout_spec draw r i (OpModule m) = Ok (r, i).
Proof. intros H. unfold propagate_dropout_spec. by rewrite H. Qed.

Lemma propagate_three_spec_null : null_three propagate_three_spec.
Proof.
  intros a b c act n La Lb Lc. unfold propagate_three_spec. cbn [fst snd].
  split; intros ->.
  - rewrite !(vadd_zeros_l n) by (rewrite ?length_vadd; lia).
    vec_pointwise. ring.
  - rewrite (vadd_zeros_l n c), (vadd_zeros_r n a) by done.
    vec_pointwise. ring.
Qed.

Lemma propagate_tanh_two_spec_null (tanh : F -> F) :
  tanh Fzero = Fzero -> null_two (propagate_tanh_two_spec tanh).
Proof.
  intros H0 a b n La Lb. unfold propagate_tanh_two_spec. cbn [fst snd].
  assert (Hz : tanh <$> zeros n = zeros n).
  { unfold zeros. rewrite fmap_replicate. by rewrite H0. }
  split; intros ->.
  - rewrite (vadd_zeros_l n b), Hz by done. vec_pointwise. ring.
  - rewrite (vadd_zeros_r n a), Hz by done. vec_pointwise. ring.
Qed.


End SpecPrimitives.

(** ** Concrete runs

    The runs below use the canonical rationals, the modelled primitives and,
    for the two activations (which no rational function computes), the
    piecewise linear [Qc_tanh], the identity clipped to [-1, 1], and
    [Qc_sigmoid x = (1 + Qc_tanh (x / 2)) / 2]. *)

Definition q (z : Z) : Qc := Q2Qc (inject_Z z).

Definition Qc_tanh (x : Qc) : Qc :=
  if Fleb x (q (-1)) then q (-1) else if Fleb (q 1) x then q 1 else x.

Definition Qc_sigmoid (x : Qc) : Qc :=
  Fadd (Fmul Fhalf (Qc_tanh (Fmul Fhalf x))) Fhalf.

Definition cd_text_qc :=
  cd_text Qc_sigmoid Qc_tanh propagate_three_spec (propagate_tanh_two_spec Qc_tanh).

(** A classifier with two hidden units, one-dimensional word vectors and two
    classes, and a batch of two sequences of three tokens. *)
Definition ex_text_model : TextModel := {|
  weight_ih_l0 := [[q 1]; [q 2]; [q (-1)]; [q 1]; [q 2]; [q 1]; [q 1]; [q (-2)]];
  weight_hh_l0 := [[q 1; q 0]; [q 0; q 1]; [q 1; q 1]; [q (-1); q 1];
                   [q 2; q 1]; [q 1; q (-1)]; [q 0; q 1]; [q 1; q 0]];
  bias_ih_l0 := [q 1; q 0; q 1; q 0; q 1; q (-1); q 0; q 1];
  bias_hh_l0 := [q 0; q 1; q 0; q 1; q 0; q 1; q 1; q 0];
  embed := fun tok => [Fmul Fhalf (q (Z.of_nat tok - 2))];
  hidden_dim := 2;
  hidden_to_label_weight := [[q 1; q 2]; [q 3; q (-1)]];
  hidden_to_label_bias := [q 5; q 7]
|}.

Definition ex_text : list (list nat) := [[1; 7]; [2; 8]; [3; 9]].
Definition ex_text' : list (list nat) := [[1; 4; 4]; [2]; [3; 0]].

(** The word vectors of its first sequence. *)
Definition ex_word_vecs : list (list Qc) :=
  [embed ex_text_model 1; embed ex_text_model 2; embed ex_text_model 3].

(** The layers of the propagators' examples. *)
Definition diag (n : nat) (c : Qc) : list (list Qc) :=
  (fun i => (fun j => if i =? j then c else q 0) <$> seq 0 n) <$> seq 0 n.

Definition container (name : string) : @TorchModule Qc :=
  {| type_str := name; weight := []; bias := None;
     kernel_size := 0; training := true |}.

Definition conv2d (n : nat) (c b : Qc) : @TorchModule Qc :=
  {| type_str := "<class 'torch.nn.modules.conv.Conv2d'>";
     weight := diag n c; bias := Some (replicate n b);
     kernel_size := 0; training := true |}.

Definition linear (W : list (list Qc)) (b : list Qc) : @TorchModule Qc :=
  {| type_str := "<class 'torch.nn.modules.linear.Linear'>";
     weight := W; bias := Some b; kernel_size := 0; training := true |}.

Definition relu_layer : @TorchModule Qc :=
  {| type_str := "<class 'torch.nn.modules.activation.ReLU'>";
     weight := []; bias := None; kernel_size := 0; training := true |}.

Definition maxpool2d : @TorchModule Qc :=
  {| type_str := "<class 'torch.nn.modules.pooling.MaxPool2d'>";
     weight := []; bias := None; kernel_size := 2; training := true |}.

Definition dropout : @TorchModule Qc :=
  {| type_str := "<class 'torch.nn.modules.dropout.Dropout'>";
     weight := []; bias := None; kernel_size := 0; training := true |}.

(** The random draw of the dropout layers in training mode. *)
Definition ex_draw : list Qc := [q 2; q 0; q 2; q 0].

Definition cd_qc :=
  cd propagate_conv_linear_spec propagate_relu_spec propagate_pooling_spec
     (propagate_dropout_spec ex_draw).

Definition cd_track_vgg_qc :=
  cd_track_vgg propagate_conv_linear_spec propagate_relu_spec
               propagate_pooling_spec (propagate_dropout_spec ex_draw).

(** A small network in training mode: [model.modules()] lists the container
    first, then its layers. *)
Definition ex_net : list (@TorchModule Qc) :=
  [ container "<class 'torch.nn.modules.container.Sequential'>";
    conv2d 4 (q 2) (q 1); relu_layer; maxpool2d; dropout;
    linear [[q 1; q (-1)]; [q 2; q 3]] [q 1; q 0] ].

Definition ex_heap : heap :=
  {| h_model := ex_net;
     h_mask := [q 1; q 1; q 0; q 0];
     h_im := [q 3; q (-1); q 2; q 5] |}.

(** VGG-16 in miniature, as [model.modules()] lists it: the model, the
    [features] container, its 31 layers, the [classifier] container and its
    7 layers.  The tensors have 32 entries, halved by each pooling. *)
Definition ex_vgg : list (@TorchModule Qc) :=
  [ container "<class 'torchvision.models.vgg.VGG'>";
    container "<class 'torch.nn.modules.container.Sequential'>";
    conv2d 32 (q 1) (q 1); relu_layer; conv2d 32 (q 2) (q (-1)); relu_layer;
    maxpool2d;
    conv2d 16 (q 1) (q 0); relu_layer; conv2d 16 (q 1) (q 1); relu_layer;
    maxpool2d;
    conv2d 8 (q 1) (q 0); relu_layer; conv2d 8 (q (-1)) (q 2); relu_layer;
    conv2d 8 (q 1) (q 0); relu_layer; maxpool2d;
    conv2d 4 (q 1) (q 0); relu_layer; conv2d 4 (q 1) (q 1); relu_layer;
    conv2d 4 (q 1) (q 0); relu_layer; maxpool2d;
    conv2d 2 (q 1) (q 0); relu_layer; conv2d 2 (q 1) (q 0); relu_layer;
    conv2d 2 (q 1) (q 1); relu_layer; maxpool2d;
    container "<class 'torch.nn.modules.container.Sequential'>";
    linear [[q 1]; [q 2]; [q 0]; [q 1]] [q 0; q 1; q 0; q 1]; relu_layer; dropout;
    linear (diag 4 (q 1)) [q 0; q 0; q 1; q 1]; relu_layer; dropout;
    linear [[q 1; q 0; q 1; q 0]; [q 0; q 1; q 0; q 1]; [q 1; q 1; q 1; q 1]]
           [q 0; q 0; q 1] ].

Definition ex_vgg_heap : heap :=
  {| h_model := ex_vgg;
     h_mask := replicate 16 (q 1) ++ replicate 16 (q 0);
     h_im := (fun k => q (Z.of_nat k - 10)) <$> seq 0 32 |}.

(** The entries of an array as plain rationals. *)
Definition entries (v : list Qc) : list Q := this <$> v.

(** What a call of a primitive or of [cd] is seen to return. *)
Definition observed_pair (r : result (list Qc * list Qc))
  : result (list Q * list Q) :=
  match r with
  | Ok (rel, irrel) => Ok (entries rel, entries irrel)
  | Raise e => Raise e
  end.

(** The two scenarios the specification gives for the primitives: a linear
    layer on [x = [1,2]] with mask [[1,0]] (the bias goes to the irrelevant
    side), and a 1x2 max-pool of [r = [3,-1]], [i = [0,5]] (both sides are
    read at the arg-max of the sum). *)
Example linear_scenario :
  observed_pair
    (propagate_conv_linear_spec [q 1; q 0] [q 0; q 2]
       (OpModule (linear [[q 1; q 2]; [q 3; q 4]] [q 10; q 20])))
  = Ok ([1; 3], [14; 28])%Q.
Proof. by vm_compute. Qed.

Example pooling_scenario :
  observed_pair
    (propagate_pooling_spec [q 3; q (-1)] [q 0; q 5] (OpMaxPool2dFn 2) None)
  = Ok ([-1], [5])%Q.
Proof. by vm_compute. Qed.

(** [cd] on the small network: convolution, ReLU, pooling, dropout (the
    identity once [model.eval()] has run) and the linear layer. *)
Example cd_on_ex_heap :
  observed_pair (cd_qc ex_heap None "cpu").1 = Ok ([6; 12], [-9; 35])%Q.
Proof. by vm_compute. Qed.

Lemma ex_text_model_well_shaped : well_shaped ex_text_model.
Proof.
  do 5 (split; [reflexivity|]).
  split; [repeat constructor|]. split; [repeat constructor|].
  exists 1. split; [repeat constructor | reflexivity].
Qed.

Lemma ex_text_nonempty : Forall (fun r : list nat => r <> []) ex_text.
Proof. repeat constructor; discriminate. Qed.

(** A run of the linear primitive on the layer [W = [[1,2],[3,4]]],
    [b = [10,20]] with [r = [1,0]], [i = [0,2]]. *)
Lemma propagate_conv_linear_sum_witness :
  let m := linear [[q 1; q 2]; [q 3; q 4]] [q 10; q 20] in
  exists out_r out_i,
    propagate_conv_linear_spec [q 1; q 0] [q 0; q 2] (OpModule m)
      = Ok (out_r, out_i) /\
    vadd out_r out_i = layer_apply m (vadd [q 1; q 0] [q 0; q 2]).
Proof.
  intros m.
  apply (propagate_conv_linear_sum m [q 10; q 20]); reflexivity.
Defined.

(** The text propagator on the example, with token 1 alone relevant: the two
    scores add up to the logits without the readout bias. *)
Lemma cd_text_scores_sum_witness :
  exists scores irrel_scores logits,
    cd_text_qc ex_text ex_text_model 1 1 true = Ok (ScoresIrrel scores irrel_scores) /\
    model_forward Qc_sigmoid Qc_tanh ex_text_model ex_text = Ok logits /\
    vadd scores irrel_scores = vsub logits (hidden_to_label_bias ex_text_model).
Proof.
  destruct (cd_text_scores_sum Qc_sigmoid Qc_tanh propagate_three_spec
              (propagate_tanh_two_spec Qc_tanh) ex_text ex_text_model 1 1)
    as (wv & s & irr & logits & _ & _ & Hcd & _ & Hfw & Hsum).
  - apply propagate_three_spec_splits.
  - apply propagate_tanh_two_spec_splits.
  - apply ex_text_model_well_shaped.
  - discriminate.
  - apply ex_text_nonempty.
  - exists s, irr, logits. auto.
Defined.

(** The output gate at timestep 1 of the example. *)
Lemma cd_text_output_gate_unsplit_witness :
  let g := gates_of ex_text_model in
  let st := cd_text_loop Qc_sigmoid Qc_tanh propagate_three_spec
              (propagate_tanh_two_spec Qc_tanh) g 2 ex_word_vecs 1 1 in
  let prev_rel_h := if 0 <? 1 then row (relevant_h st) (1 - 1) else zeros 2 in
  let prev_irrel_h := if 0 <? 1 then row (irrelevant_h st) (1 - 1) else zeros 2 in
  let o := Qc_sigmoid <$>
             vadd (vadd (np_dot (W_io g) (row ex_word_vecs 1))
                        (np_dot (W_ho g) (vadd prev_rel_h prev_irrel_h)))
                  (b_o g) in
  let new_h := propagate_tanh_two_spec Qc_tanh
                 (row (relevant st) 1) (row (irrelevant st) 1) in
  row (relevant_h st) 1 = vmul o new_h.1 /\
  row (irrelevant_h st) 1 = vmul o new_h.2.
Proof.
  intros g.
  apply (cd_text_output_gate_unsplit Qc_sigmoid Qc_tanh propagate_three_spec
           (propagate_tanh_two_spec Qc_tanh) g 2 ex_word_vecs 1 1 1).
  vm_compute. lia.
Defined.

(** Timestep 2 of the example, whose word vector is [[1/2]], lies in
    [1, 2]: the word vector enters the relevant side. *)
Lemma cd_text_input_routing_witness :
  let g := gates_of ex_text_model in
  let st := cd_text_loop Qc_sigmoid Qc_tanh propagate_three_spec
              (propagate_tanh_two_spec Qc_tanh) g 2 ex_word_vecs 1 2 in
  let x := row ex_word_vecs 2 in
  let prev_rel_h := if 0 <? 2 then row (relevant_h st) (2 - 1) else zeros 2 in
  let prev_irrel_h := if 0 <? 2 then row (irrelevant_h st) (2 - 1) else zeros 2 in
  let to_relevant :=
    {| rel_i := vadd (np_dot (W_hi g) prev_rel_h) (np_dot (W_ii g) x);
       rel_g := vadd (np_dot (W_hg g) prev_rel_h) (np_dot (W_ig g) x);
       rel_f := vadd (np_dot (W_hf g) prev_rel_h) (np_dot (W_if g) x);
       rel_o := vadd (np_dot (W_ho g) prev_rel_h) (np_dot (W_io g) x);
       irrel_i := np_dot (W_hi g) prev_irrel_h;
       irrel_g := np_dot (W_hg g) prev_irrel_h;
       irrel_f := np_dot (W_hf g) prev_irrel_h;
       irrel_o := np_dot (W_ho g) prev_irrel_h |} in
  gate_preacts g 1 2 2 x prev_rel_h prev_irrel_h = to_relevant /\
  rows_at st 2
  = cd_text_cell Qc_sigmoid Qc_tanh propagate_three_spec
      (propagate_tanh_two_spec Qc_tanh) g 2 ex_word_vecs 1 2 2 to_relevant
      (rows_at st (2 - 1)).
Proof.
  intros g.
  apply (proj1 (cd_text_input_routing Qc_sigmoid Qc_tanh propagate_three_spec
                  (propagate_tanh_two_spec Qc_tanh) g 2 ex_word_vecs 1 2 2
                  ltac:(vm_compute; lia))).
  lia.
Defined.

(** What is seen of a row of the four arrays. *)
Definition observed_rows (r : rows) : list (list Q) :=
  [entries (r_relevant r); entries (r_irrelevant r);
   entries (r_relevant_h r); entries (r_irrelevant_h r)].

(** The routing shows in the arrays: row 2 of the example with timestep 2 in
    the range and with timestep 2 outside it. *)
Example cd_text_routing_visible :
  let g := gates_of ex_text_model in
  let run start stop :=
    observed_rows
      (rows_at (cd_text_loop Qc_sigmoid Qc_tanh propagate_three_spec
                  (propagate_tanh_two_spec Qc_tanh) g 2 ex_word_vecs start stop) 2) in
  row ex_word_vecs 2 = [Fhalf] /\ run 2%Z 2%Z <> run 0%Z 1%Z.
Proof. split; [reflexivity|]. vm_compute. discriminate. Qed.

(** Timestep 1 of the example lies in [1, 1]: the cross term is in
    [relevant[1]] and not in [irrelevant[1]]. *)
Lemma cd_text_bias_cross_term_witness :
  let g := gates_of ex_text_model in
  let st := cd_text_loop Qc_sigmoid Qc_tanh propagate_three_spec
              (propagate_tanh_two_spec Qc_tanh) g 2 ex_word_vecs 1 1 in
  let prev_rel_h := if 0 <? 1 then row (relevant_h st) (1 - 1) else zeros 2 in
  let prev_irrel_h := if 0 <? 1 then row (irrelevant_h st) (1 - 1) else zeros 2 in
  let pa := gate_preacts g 1 1 1 (row ex_word_vecs 1) prev_rel_h prev_irrel_h in
  let '(rel_contrib_i, irrel_contrib_i, bias_contrib_i) :=
    propagate_three_spec (rel_i pa) (irrel_i pa) (b_i g) Qc_sigmoid in
  let '(rel_contrib_g, irrel_contrib_g, bias_contrib_g) :=
    propagate_three_spec (rel_g pa) (irrel_g pa) (b_g g) Qc_tanh in
  let '(rel_contrib_f, irrel_contrib_f, bias_contrib_f) :=
    propagate_three_spec (rel_f pa) (irrel_f pa) (b_f g) Qc_sigmoid in
  let base_rel := vadd (vmul rel_contrib_i (vadd rel_contrib_g bias_contrib_g))
                       (vmul bias_contrib_i rel_contrib_g) in
  let base_irrel :=
    vadd (vmul irrel_contrib_i (vadd (vadd rel_contrib_g irrel_contrib_g) bias_contrib_g))
         (vmul (vadd rel_contrib_i bias_contrib_i) irrel_contrib_g) in
  let cross := vmul bias_contrib_i bias_contrib_g in
  let forget_rel v :=
    if 0 <? 1
    then vadd v (vmul (vadd rel_contrib_f bias_contrib_f) (row (relevant st) (1 - 1)))
    else v in
  let forget_irrel v :=
    if 0 <? 1
    then vadd v (vadd (vmul (vadd (vadd rel_contrib_f irrel_contrib_f) bias_contrib_f)
                            (row (irrelevant st) (1 - 1)))
                      (vmul irrel_contrib_f (row (relevant st) (1 - 1))))
    else v in
  row (relevant st) 1 = forget_rel (vadd base_rel cross) /\
  row (irrelevant st) 1 = forget_irrel base_irrel.
Proof.
  intros g.
  pose proof (cd_text_bias_cross_term Qc_sigmoid Qc_tanh propagate_three_spec
                (propagate_tanh_two_spec Qc_tanh) g 2 ex_word_vecs 1 1 1
                ltac:(vm_compute; lia)) as H.
  cbv beta zeta in *.
  destruct (propagate_three_spec _ _ _ Qc_sigmoid) as [[rci ici] bci].
  destruct (propagate_three_spec _ _ _ Qc_tanh) as [[rcg icg] bcg].
  destruct (propagate_three_spec _ _ _ Qc_sigmoid) as [[rcf icf] bcf].
  apply (proj1 H). lia.
Defined.

(** A container is not propagated through. *)
Lemma cd_unrecognized_passthrough_witness :
  let m := container "<class 'torch.nn.modules.container.Sequential'>" in
  cd_step propagate_conv_linear_spec propagate_relu_spec propagate_pooling_spec
          (propagate_dropout_spec ex_draw) ([q 1], [q 2]) m
  = Ok ([q 1], [q 2]) /\
  (cd_qc {| h_model := [conv2d 1 (q 1) (q 0)] ++ m :: [relu_layer];
            h_mask := [q 1]; h_im := [q 3] |} None "cpu").1
  = (cd_qc {| h_model := [conv2d 1 (q 1) (q 0)] ++ [relu_layer];
              h_mask := [q 1]; h_im := [q 3] |} None "cpu").1.
Proof.
  intros m.
  destruct (cd_unrecognized_passthrough propagate_conv_linear_spec
              propagate_relu_spec propagate_pooling_spec
              (propagate_dropout_spec ex_draw) m [q 1] [q 2]
              [conv2d 1 (q 1) (q 0)] [relu_layer] [q 1] [q 3] None "cpu")
    as (H1 & _ & H3); [reflexivity|].
  split; [exact H1 | apply H3; discriminate].
Defined.

(** What a call of [cd_text] is seen to do: the entries of the scores it
    returns, or the exception it raises. *)
Definition observed (r : result cd_text_result) : result (list Q * list Q) :=
  match r with
  | Ok (ScoresIrrel s irr) => Ok (entries s, entries irr)
  | Ok (Scores s) => Ok (entries s, [])
  | Raise e => Raise e
  end.

(** C7, counterexample.  With [start = 2 > stop = 1], and with the range
    [5, 9] outside [0, 2], [cd_text] raises nothing: it returns scores, the
    relevant ones all zero. *)
Lemma cd_text_reversed_range_returns :
  (1 < 2)%Z /\
  observed (cd_text_qc ex_text ex_text_model 2 1 true)
  = Ok ([0; 0], [253385 # 131072; 549431 # 262144])%Q /\
  observed (cd_text_qc ex_text ex_text_model 5 9 true)
  = Ok ([0; 0], [253385 # 131072; 549431 # 262144])%Q /\
  ~ (exists e, cd_text_qc ex_text ex_text_model 2 1 true = Raise e).
Proof.
  split; [lia|]. split; [by vm_compute|]. split; [by vm_compute|].
  intros [e He]. vm_compute in He. discriminate.
Qed.

Lemma cd_text_no_range_check_witness :
  (exists res, cd_text_qc ex_text ex_text_model 2 1 true = Ok res) /\
  cd_text_qc ex_text ex_text_model 2 1 true
  = cd_text_qc ex_text ex_text_model 5 9 true.
Proof.
  destruct (cd_text_no_range_check Qc_sigmoid Qc_tanh propagate_three_spec
              (propagate_tanh_two_spec Qc_tanh) ex_text ex_text_model
              2 1 5 9 true) as [H1 H2].
  - apply ex_text_model_well_shaped.
  - discriminate.
  - apply ex_text_nonempty.
  - split; [exact H1|]. apply H2.
    intros [|[|[|t]]] Ht; try reflexivity. cbn in Ht. lia.
Defined.

(** The number of snapshots a call of [cd_track_vgg] returns. *)
Definition snapshot_count {A B} (r : result (A * B * list (list Qc * list Qc)))
  : result nat :=
  match r with
  | Ok (_, _, scores) => Ok (length scores)
  | Raise e => Raise e
  end.

(** C8, counterexample.  On the miniature VGG-16, [cd_track_vgg] propagates
    through 38 layers and returns 13 snapshots. *)
Lemma cd_track_vgg_not_per_layer :
  length (layers (drop 2 (h_model ex_vgg_heap))) = 38 /\
  snapshot_count (cd_track_vgg_qc ex_vgg_heap (Some "vgg"%string)).1 = Ok 13 /\
  snapshot_count (cd_track_vgg_qc ex_vgg_heap (Some "vgg"%string)).1
  <> Ok (length (layers (drop 2 (h_model ex_vgg_heap)))).
Proof.
  split; [by vm_compute|]. split; [by vm_compute|].
  vm_compute. discriminate.
Qed.

(** The run on the miniature VGG-16: each of its thirteen snapshots is the
    pair held after the convolution it belongs to. *)
Lemma cd_track_vgg_snapshots_witness :
  exists r i scores,
    (cd_track_vgg_qc ex_vgg_heap (Some "vgg"%string)).1 = Ok (r, i, scores) /\
    (let mods := drop 2 (model_eval (h_model ex_vgg_heap)) in
     let p0 := (vmul (h_mask ex_vgg_heap) (h_im ex_vgg_heap),
                vmul (one_minus (h_mask ex_vgg_heap)) (h_im ex_vgg_heap)) in
     length scores = 13 /\
     Forall2 (snapshot_at propagate_conv_linear_spec propagate_relu_spec
                propagate_pooling_spec (propagate_dropout_spec ex_draw)
                (Some "vgg"%string) mods p0) snapshot_indices scores /\
     run_calls propagate_conv_linear_spec propagate_relu_spec
       propagate_pooling_spec (propagate_dropout_spec ex_draw)
       (Some "vgg"%string) mods vgg_calls p0 = Ok (r, i)).
Proof.
  destruct (cd_track_vgg_qc ex_vgg_heap (Some "vgg"%string)).1
    as [[[r i] scores]|e] eqn:E.
  - exists r, i, scores. split; [reflexivity|].
    exact (cd_track_vgg_snapshots propagate_conv_linear_spec
             propagate_relu_spec propagate_pooling_spec
             (propagate_dropout_spec ex_draw) ex_vgg_heap
             (Some "vgg"%string) r i scores E).
  - vm_compute in E. discriminate.
Defined.

(** The first two snapshots of that run: the output of the first
    convolution on the masked input, and that of the second on what the
    first ReLU returned. *)
Example cd_track_vgg_first_snapshots :
  match (cd_track_vgg_qc ex_vgg_heap (Some "vgg"%string)).1 with
  | Ok (_, _, s0 :: s1 :: _) =>
    observed_pair (Ok s0)
    = observed_pair
        (run_calls propagate_conv_linear_spec propagate_relu_spec
           propagate_pooling_spec (propagate_dropout_spec ex_draw)
           (Some "vgg"%string) (drop 2 (model_eval (h_model ex_vgg_heap)))
           [CallConvLinear 0]
           (vmul (h_mask ex_vgg_heap) (h_im ex_vgg_heap),
            vmul (one_minus (h_mask ex_vgg_heap)) (h_im ex_vgg_heap))) /\
    observed_pair (Ok s1)
    = observed_pair
        (run_calls propagate_conv_linear_spec propagate_relu_spec
           propagate_pooling_spec (propagate_dropout_spec ex_draw)
           (Some "vgg"%string) (drop 2 (model_eval (h_model ex_vgg_heap)))
           [CallConvLinear 0; CallRelu 1; CallConvLinear 2]
           (vmul (h_mask ex_vgg_heap) (h_im ex_vgg_heap),
            vmul (one_minus (h_mask ex_vgg_heap)) (h_im ex_vgg_heap)))
  | _ => False
  end.
Proof. by vm_compute. Qed.

(** Two batches with the first column [1, 2, 3]. *)
Lemma cd_text_first_column_only_witness :
  cd_text_qc ex_text ex_text_model 1 1 true
  = cd_text_qc ex_text' ex_text_model 1 1 true.
Proof.
  apply cd_text_first_column_only. repeat constructor.
Defined.

(** [cd] on the small network, which is in training mode when called. *)
Lemma cd_frame_witness :
  let out := cd_qc ex_heap None "cpu" in
  h_mask out.2 = h_mask ex_heap /\
  module_params <$> h_model out.2 = module_params <$> h_model ex_heap /\
  Forall (fun m => training m = false) (h_model out.2) /\
  out.1 = (cd_qc {| h_model := [container "<class 'torch.nn.modules.container.Sequential'>";
                                conv2d 4 (q 2) (q 1); relu_layer; maxpool2d]
                               ++ [linear [[q 1; q (-1)]; [q 2; q 3]] [q 1; q 0]];
                    h_mask := h_mask ex_heap; h_im := h_im ex_heap |}
                 None "cpu").1.
Proof.
  intros out.
  destruct (cd_frame propagate_conv_linear_spec propagate_relu_spec
              propagate_pooling_spec (propagate_dropout_spec ex_draw)
              ex_heap None "cpu")
    as (Hp & Hm & _ & _ & Ht & _ & Hd).
  - intros r i m Hm. by apply propagate_dropout_spec_eval.
  - split; [exact Hm|]. split; [exact Hp|]. split; [exact Ht|].
    apply (Hd _ dropout); [reflexivity | reflexivity | discriminate].
Defined.

(** ** Concrete runs of the further properties *)

(** A model of containers only. *)
Definition ex_containers : heap :=
  {| h_model := [container "<class 'torch.nn.modules.container.Sequential'>";
                 container "<class 'torch.nn.modules.linear.Identity'>"];
     h_mask := [q 1; q 0];
     h_im := [q 3; q 5] |}.

Lemma cd_initial_split_exact_witness :
  (cd_qc ex_containers None "cpu").1 = Ok (initial_pair ex_containers) /\
  vadd (initial_pair ex_containers).1 (initial_pair ex_containers).2
  = h_im ex_containers.
Proof.
  destruct (cd_initial_split_exact propagate_conv_linear_spec propagate_relu_spec
              propagate_pooling_spec (propagate_dropout_spec ex_draw)
              ex_containers None "cpu") as (H1 & H2 & _).
  - reflexivity.
  - repeat constructor.
  - discriminate.
  - by split.
Defined.

(** A linear primitive that fails on every layer. *)
Definition failing_conv_linear (r i : list Qc) (o : @operator Qc)
  : result (list Qc * list Qc) := Raise RuntimeError.

Lemma cd_raises_at_first_failure_witness :
  (cd failing_conv_linear propagate_relu_spec propagate_pooling_spec
      (propagate_dropout_spec ex_draw) ex_heap None "cpu").1
  = Raise RuntimeError.
Proof.
  refine (proj1 (cd_raises_at_first_failure failing_conv_linear
                   propagate_relu_spec propagate_pooling_spec
                   (propagate_dropout_spec ex_draw) ex_heap
                   [container "<class 'torch.nn.modules.container.Sequential'>"]
                   [relu_layer; maxpool2d; dropout;
                    linear [[q 1; q (-1)]; [q 2; q 3]] [q 1; q 0]]
                   (conv2d 4 (q 2) (q 1)) (initial_pair ex_heap) RuntimeError
                   None "cpu" _ _ _ _)).
  - reflexivity.
  - discriminate.
  - reflexivity.
  - reflexivity.
Defined.

(** The small network with its first and fourth modules replaced and one
    module more. *)
Definition ex_net' : list (@TorchModule Qc) :=
  [ relu_layer; conv2d 4 (q 2) (q 1); relu_layer; dropout; dropout;
    linear [[q 1; q (-1)]; [q 2; q 3]] [q 1; q 0]; maxpool2d ].

Lemma cd_propagate_mnist_reads_four_witness :
  cd_propagate_mnist propagate_conv_linear_spec propagate_relu_spec
    propagate_pooling_spec [q 1; q 2] [q 3; q 4] ex_net
  = cd_propagate_mnist propagate_conv_linear_spec propagate_relu_spec
      propagate_pooling_spec [q 1; q 2] [q 3; q 4] ex_net'.
Proof.
  apply cd_propagate_mnist_reads_four. intros k Hk.
  repeat (apply elem_of_cons in Hk as [->|Hk]; [reflexivity|]).
  by apply elem_of_nil in Hk.
Defined.

Lemma cd_propagate_mnist_needs_six_witness :
  cd_propagate_mnist propagate_conv_linear_spec propagate_relu_spec
    propagate_pooling_spec [q 1; q 2] [q 3; q 4] [relu_layer]
  = Raise IndexError.
Proof.
  apply (proj1 (cd_propagate_mnist_needs_six propagate_conv_linear_spec
                  propagate_relu_spec propagate_pooling_spec
                  [q 1; q 2] [q 3; q 4] [relu_layer])).
  cbn. lia.
Defined.

(** The miniature VGG-16 with other modules at positions 0, 1 and 33 and one
    module more. *)
Definition ex_vgg_heap' : heap :=
  {| h_model := <[0 := relu_layer]> (<[1 := dropout]> (<[33 := maxpool2d]> ex_vgg))
                ++ [dropout];
     h_mask := h_mask ex_vgg_heap;
     h_im := h_im ex_vgg_heap |}.

Lemma cd_track_vgg_reads_by_position_witness :
  (cd_track_vgg_qc ex_vgg_heap (Some "vgg"%string)).1
  = (cd_track_vgg_qc ex_vgg_heap' (Some "vgg"%string)).1.
Proof.
  apply cd_track_vgg_reads_by_position; [reflexivity | reflexivity |].
  intros k H1 H2.
  do 41 (destruct k as [|k]; [first [lia | reflexivity]|]). lia.
Defined.

Lemma cd_track_vgg_needs_41_witness :
  (cd_track_vgg_qc {| h_model := [relu_layer; dropout];
                      h_mask := [q 1]; h_im := [q 2] |} None).1
  = Raise IndexError.
Proof.
  apply (proj1 (cd_track_vgg_needs_41 propagate_conv_linear_spec
                  propagate_relu_spec propagate_pooling_spec
                  (propagate_dropout_spec ex_draw) _ None)).
  cbn. lia.
Defined.

Lemma cd_track_vgg_agrees_with_cd_witness :
  final_pair (cd_track_vgg_qc ex_vgg_heap (Some "vgg"%string)).1
  = (cd_qc ex_vgg_heap None "cpu").1.
Proof.
  apply cd_track_vgg_agrees_with_cd.
  - unfold has_layout, vgg16_layout, ex_vgg_heap, ex_vgg. cbn [h_model].
    repeat (constructor; [reflexivity|]). constructor.
  - reflexivity.
Defined.

(** A state dict whose input weights have three rows. *)
Definition ex_bad_model : TextModel :=
  {| weight_ih_l0 := [[q 1]; [q 2]; [q 3]];
     weight_hh_l0 := weight_hh_l0 ex_text_model;
     bias_ih_l0 := bias_ih_l0 ex_text_model;
     bias_hh_l0 := bias_hh_l0 ex_text_model;
     embed := embed ex_text_model;
     hidden_dim := 2;
     hidden_to_label_weight := hidden_to_label_weight ex_text_model;
     hidden_to_label_bias := hidden_to_label_bias ex_text_model |}.

(** A state dict whose biases have eight and three entries. *)
Definition ex_bad_bias_model : TextModel :=
  {| weight_ih_l0 := weight_ih_l0 ex_text_model;
     weight_hh_l0 := weight_hh_l0 ex_text_model;
     bias_ih_l0 := bias_ih_l0 ex_text_model;
     bias_hh_l0 := [q 1; q 0; q 1];
     embed := embed ex_text_model;
     hidden_dim := 2;
     hidden_to_label_weight := hidden_to_label_weight ex_text_model;
     hidden_to_label_bias := hidden_to_label_bias ex_text_model |}.

Lemma cd_text_unsplittable_raises_witness :
  cd_text_qc ex_text ex_bad_model 1 1 true = Raise ValueError /\
  cd_text_qc ex_text ex_bad_bias_model 1 1 true = Raise ValueError.
Proof.
  split; apply cd_text_unsplittable_raises.
  - left. cbn. lia.
  - right. right. left. cbn. lia.
Defined.

(** A state dict whose second bias has a single entry, and the one with that
    entry repeated: [cd_text] broadcasts the first to the second. *)
Definition ex_broadcast_model (bias_hh : list Qc) : TextModel :=
  {| weight_ih_l0 := weight_ih_l0 ex_text_model;
     weight_hh_l0 := weight_hh_l0 ex_text_model;
     bias_ih_l0 := bias_ih_l0 ex_text_model;
     bias_hh_l0 := bias_hh;
     embed := embed ex_text_model;
     hidden_dim := 2;
     hidden_to_label_weight := hidden_to_label_weight ex_text_model;
     hidden_to_label_bias := hidden_to_label_bias ex_text_model |}.

Example cd_text_broadcast_bias :
  observed (cd_text_qc ex_text (ex_broadcast_model [q 1]) 1 1 true)
  = observed (cd_text_qc ex_text (ex_broadcast_model (replicate 8 (q 1))) 1 1 true) /\
  ~ (exists e, cd_text_qc ex_text (ex_broadcast_model [q 1]) 1 1 true = Raise e).
Proof.
  split; [by vm_compute|]. intros [e He]. vm_compute in He. discriminate.
Qed.

Lemma cd_text_empty_batch_raises_witness :
  cd_text_qc [] ex_text_model 1 1 true = Raise IndexError /\
  cd_text_qc [[1; 7]; []; [3; 9]] ex_text_model 1 1 true = Raise IndexError.
Proof.
  split; apply cd_text_empty_batch_raises;
    try apply well_shaped_splittable, ex_text_model_well_shaped.
  - by left.
  - right. apply Exists_cons_tl, Exists_cons_hd. reflexivity.
Defined.

Lemma cd_text_rows_causal_witness :
  let g := gates_of ex_text_model in
  rows_at (cd_text_loop Qc_sigmoid Qc_tanh propagate_three_spec
             (propagate_tanh_two_spec Qc_tanh) g 2
             (ex_word_vecs ++ [embed ex_text_model 4]) 1 1) 2
  = rows_at (cd_text_loop Qc_sigmoid Qc_tanh propagate_three_spec
               (propagate_tanh_two_spec Qc_tanh) g 2 ex_word_vecs 1 1) 2.
Proof.
  intros g. apply cd_text_rows_causal. cbn. lia.
Defined.

Lemma Qc_tanh_zero : Qc_tanh Fzero = Fzero.
Proof. reflexivity. Qed.

Lemma cd_text_empty_range_witness :
  exists irrel_scores logits,
    cd_text_qc ex_text ex_text_model 2 1 true
    = Ok (ScoresIrrel (zeros (length (hidden_to_label_weight ex_text_model)))
                      irrel_scores) /\
    model_forward Qc_sigmoid Qc_tanh ex_text_model ex_text = Ok logits /\
    irrel_scores = vsub logits (hidden_to_label_bias ex_text_model).
Proof.
  apply (cd_text_empty_range Qc_sigmoid Qc_tanh propagate_three_spec
           (propagate_tanh_two_spec Qc_tanh) ex_text ex_text_model 2 1).
  - apply propagate_three_spec_splits.
  - apply propagate_tanh_two_spec_splits.
  - apply propagate_three_spec_null.
  - apply propagate_tanh_two_spec_null, Qc_tanh_zero.
  - apply ex_text_model_well_shaped.
  - discriminate.
  - apply ex_text_nonempty.
  - intros [|[|[|t]]] Ht; try reflexivity. cbn in Ht. lia.
Defined.

Lemma cd_text_full_range_witness :
  exists scores logits,
    cd_text_qc ex_text ex_text_model 0 2 true
    = Ok (ScoresIrrel scores
                      (zeros (length (hidden_to_label_weight ex_text_model)))) /\
    model_forward Qc_sigmoid Qc_tanh ex_text_model ex_text = Ok logits /\
    scores = vsub logits (hidden_to_label_bias ex_text_model).
Proof.
  apply (cd_text_full_range Qc_sigmoid Qc_tanh propagate_three_spec
           (propagate_tanh_two_spec Qc_tanh) ex_text ex_text_model 0 2).
  - apply propagate_three_spec_splits.
  - apply propagate_tanh_two_spec_splits.
  - apply propagate_three_spec_null.
  - apply propagate_tanh_two_spec_null, Qc_tanh_zero.
  - apply ex_text_model_well_shaped.
  - discriminate.
  - apply ex_text_nonempty.
  - intros [|[|[|t]]] Ht; try reflexivity. cbn in Ht. lia.
Defined.



(** A leaky ReLU layer: its type contains the text [ReLU], and the loop of
    [cd] gives it to [propagate_relu]. *)
Definition leaky_relu : @TorchModule Qc :=
  {| type_str := "<class 'torch.nn.modules.activation.LeakyReLU'>";
     weight := []; bias := None; kernel_size := 0; training := false |}.

Lemma cd_step_by_substring_witness :
  cd_step propagate_conv_linear_spec propagate_relu_spec propagate_pooling_spec
    (propagate_dropout_spec ex_draw) ([q 1; q (-2)], [q 2; q 1]) leaky_relu
  = propagate_relu_spec ([q 1; q (-2)], [q 2; q 1]).1 ([q 1; q (-2)], [q 2; q 1]).2
      (OpModule leaky_relu).
Proof.
  apply (proj1 (proj2 (cd_step_by_substring propagate_conv_linear_spec
                         propagate_relu_spec propagate_pooling_spec
                         (propagate_dropout_spec ex_draw)
                         ([q 1; q (-2)], [q 2; q 1]) leaky_relu))).
  - intros H. apply py_in_true in H. discriminate.
  - intros H. apply py_in_true in H. discriminate.
  - by exists "<class 'torch.nn.modules.activation.Leaky"%string, "'>"%string.
Defined.
